(** * Case and DCA documents of the debt-collection platform

    A shallow embedding of the two Mongoose models of the backend
    (models/DCA.js and models/Case.js): their virtuals, their pre-save
    hooks and their instance methods, followed by the properties the
    specification states about them.

    Modelling conventions.
    - A document is a record; a method that mutates [this] is a function
      from the document before the call to the document after it.
    - Counters (case loads, capacities, days) and dates (milliseconds since
      the epoch) are integers [Z]; money amounts are exact rationals [Q]
      (the rounding of IEEE doubles is not modelled, and equalities between
      amounts are stated with [==]).
    - [new Date()] and the database query of the case-number hook read the
      world outside the document: they live in the small state monad [IO].
    - [save] is the sequence of the schema's pre-save hooks, in the order
      they are registered.  Validation, persistence and the library's own
      bookkeeping around a save (timestamps, clearing of [isNew] and of the
      modified paths) are not code of the models and are left out: the
      flags the hooks read are fields of the document. *)

From Stdlib Require Import ZArith QArith Qminmax String DecimalString Lia Lqa.
From Stdlib Require DecimalPos DecimalZ.
From stdpp Require Import base decidable option list strings.

Open Scope Z_scope.

(** ** The world outside a document *)

(** [clock] is the sequence of instants the system clock returns, one per
    [new Date()]; [reads] counts the readings made so far.  [getFullYear]
    is the host's calendar (local year of an instant) and [countDocuments]
    the number of stored cases created in a given year. *)
Record World : Type := mkWorld {
  clock : nat -> Z;
  reads : nat;
  getFullYear : Z -> Z;
  countDocuments : Z -> Z
}.

Definition IO (A : Type) : Type := World -> A * World.

#[global] Instance IO_ret : MRet IO := fun A (a : A) w => (a, w).
#[global] Instance IO_bind : MBind IO :=
  fun A B (k : A -> IO B) (m : IO A) w => let (a, w') := m w in k a w'.

(** [new Date()]: the next reading of the clock. *)
Definition new_Date : IO Z := fun w =>
  (clock w (reads w),
   mkWorld (clock w) (S (reads w)) (getFullYear w) (countDocuments w)).

(** [date.getFullYear()] *)
Definition Date_getFullYear (date : Z) : IO Z := fun w => (getFullYear w date, w).

(** [countDocuments] over the cases created in [year]. *)
Definition countDocuments_in (year : Z) : IO Z :=
  fun w => (countDocuments w year, w).

(** The instant the [k]-th next [new Date()] will return. *)
Definition upcoming (w : World) (k : nat) : Z := clock w (reads w + k)%nat.

(** Milliseconds in a day, [1000 * 60 * 60 * 24]. *)
Definition MS_PER_DAY : Z := 1000 * 60 * 60 * 24.

(** A thrown [new Error(message)]. *)
Inductive JsError : Type := Error (message : string).

(** How a call that may throw ends. *)
Inductive Outcome : Type := Completed | Throws (e : JsError).

#[global] Instance JsError_eq_dec : EqDecision JsError.
Proof. solve_decision. Defined.
#[global] Instance Outcome_eq_dec : EqDecision Outcome.
Proof. solve_decision. Defined.

(** [Array.prototype.slice(start)] with one argument: a negative [start]
    counts from the end, and both ends are clamped to the array. *)
Definition slice {A} (start : Z) (l : list A) : list A :=
  let len := Z.of_nat (length l) in
  let k := if start <? 0 then Z.max (len + start) 0 else Z.min start len in
  drop (Z.to_nat k) l.

(** ** models/DCA.js *)
Module DCA.

Inductive Status := ACTIVE | INACTIVE | SUSPENDED | TERMINATED | ONBOARDING.

Module ContractStatus.
Inductive t := ACTIVE | INACTIVE | SUSPENDED | TERMINATED | PENDING.
End ContractStatus.

Module LicenseStatus.
Inductive t := ACTIVE | EXPIRED | SUSPENDED | REVOKED.
End LicenseStatus.

Inductive ComplianceStatus :=
  COMPLIANT | NON_COMPLIANT | UNDER_REVIEW | COMPLIANCE_SUSPENDED.

#[global] Instance DCA_Status_eq_dec : EqDecision Status.
Proof. solve_decision. Defined.
#[global] Instance ContractStatus_eq_dec : EqDecision ContractStatus.t.
Proof. solve_decision. Defined.
#[global] Instance LicenseStatus_eq_dec : EqDecision LicenseStatus.t.
Proof. solve_decision. Defined.

Record License := mkLicense {
  licenseNumber : string;
  expiryDate : option Z;
  licenseStatus : LicenseStatus.t
}.

Record MonthlyMetric := mkMonthlyMetric {
  month : Z;
  casesHandled : Z;
  amountRecovered : Q;
  metricRecoveryRate : Q;
  slaCompliance : Q;
  customerSatisfaction : Q
}.

Record Capacity := mkCapacity {
  maxConcurrentCases : Z;
  currentCaseLoad : Z;
  availableAgents : Z
}.

Record Licensing := mkLicensing {
  licenses : list License;
  complianceStatus : ComplianceStatus
}.

Record Performance := mkPerformance {
  totalCasesHandled : Z;
  totalAmountRecovered : Q;
  averageRecoveryRate : Q;
  monthlyMetrics : list MonthlyMetric
}.

Record Flags := mkFlags {
  isPreferred : bool;
  isBlacklisted : bool;
  requiresApproval : bool;
  hasActiveIssues : bool
}.

(** The document.  [licensesModified] is what
    [this.isModified('licensing.licenses')] answers. *)
Record Doc := mkDoc {
  name : string;
  registrationNumber : string;
  licensing : Licensing;
  capacity : Capacity;
  performance : Performance;
  contractStatus : ContractStatus.t;
  status : Status;
  flags : Flags;
  licensesModified : bool
}.

(** Assignments to single paths of the document. *)
Definition set_currentCaseLoad (v : Z) (d : Doc) : Doc :=
  mkDoc (name d) (registrationNumber d) (licensing d)
        (mkCapacity (maxConcurrentCases (capacity d)) v
                    (availableAgents (capacity d)))
        (performance d) (contractStatus d) (status d) (flags d)
        (licensesModified d).

Definition set_complianceStatus (v : ComplianceStatus) (d : Doc) : Doc :=
  mkDoc (name d) (registrationNumber d)
        (mkLicensing (licenses (licensing d)) v)
        (capacity d) (performance d) (contractStatus d) (status d)
        (flags d) (licensesModified d).

Definition set_monthlyMetrics (v : list MonthlyMetric) (d : Doc) : Doc :=
  mkDoc (name d) (registrationNumber d) (licensing d) (capacity d)
        (mkPerformance (totalCasesHandled (performance d))
                       (totalAmountRecovered (performance d))
                       (averageRecoveryRate (performance d)) v)
        (contractStatus d) (status d) (flags d) (licensesModified d).

(** The [min] validators of the schema on the capacity counters. *)
Definition capacity_valid (d : Doc) : Prop :=
  1 <= maxConcurrentCases (capacity d) /\ 0 <= currentCaseLoad (capacity d).

(** virtual('availableCapacity') *)
Definition availableCapacity (d : Doc) : Z :=
  Z.max 0 (maxConcurrentCases (capacity d) - currentCaseLoad (capacity d)).

(** virtual('hasValidLicenses'); the clock is read only when there is a
    license to check. *)
Definition hasValidLicenses (d : Doc) : IO bool :=
  match licenses (licensing d) with
  | [] => mret false
  | ls =>
      now ← new_Date;
      mret (forallb
              (fun license =>
                 bool_decide (licenseStatus license = LicenseStatus.ACTIVE)
                 && match expiryDate license with
                    | None => true
                    | Some e => e >? now
                    end)
              ls)
  end.

(** pre('save'), first hook: the load never exceeds the maximum. *)
Definition pre_save_capacity (d : Doc) : Doc :=
  if currentCaseLoad (capacity d) >? maxConcurrentCases (capacity d)
  then set_currentCaseLoad (maxConcurrentCases (capacity d)) d
  else d.

(** pre('save'), second hook: compliance follows the licenses. *)
Definition pre_save_compliance (d : Doc) : IO Doc :=
  if licensesModified d
  then valid ← hasValidLicenses d;
       mret (set_complianceStatus
               (if valid : bool then COMPLIANT else NON_COMPLIANT) d)
  else mret d.

Definition save (d : Doc) : IO Doc :=
  pre_save_compliance (pre_save_capacity d).

(** methods.addMonthlyMetrics *)
Definition addMonthlyMetrics (monthlyData : MonthlyMetric) (d : Doc)
  : IO Doc :=
  let pushed := monthlyMetrics (performance d) ++ [monthlyData] in
  let kept := if (24 <? length pushed)%nat then slice (-24) pushed
              else pushed in
  save (set_monthlyMetrics kept d).

(** methods.isAvailable; [None] is a call without argument
    ([requiredCapacity = 1]). *)
Definition isAvailable (requiredCapacity : option Z) (d : Doc) : bool :=
  let n := default 1 requiredCapacity in
  bool_decide (status d = ACTIVE)
  && bool_decide (contractStatus d = ContractStatus.ACTIVE)
  && negb (isBlacklisted (flags d))
  && (availableCapacity d >=? n).

Definition No_available_capacity : JsError :=
  Error "No available capacity".

(** methods.assignCase: the pair is how the call ends and the document
    after it. *)
Definition assignCase (d : Doc) : IO (Outcome * Doc) :=
  if availableCapacity d >? 0
  then d' ← save (set_currentCaseLoad (currentCaseLoad (capacity d) + 1) d);
       mret (Completed, d')
  else mret (Throws No_available_capacity, d).

(** methods.releaseCase *)
Definition releaseCase (d : Doc) : IO Doc :=
  if currentCaseLoad (capacity d) >? 0
  then save (set_currentCaseLoad (currentCaseLoad (capacity d) - 1) d)
  else save d.

End DCA.

(** [String(n)] for an integer [n]. *)
Definition String_of_Z (n : Z) : string := NilZero.string_of_int (Z.to_int n).

(** [s.padStart(targetLength, '0')] *)
Definition padStart0 (targetLength : nat) (s : string) : string :=
  String.concat "" (replicate (targetLength - String.length s) "0"%string)
  +:+ s.

(** ** models/Case.js *)
Module Case.

Inductive Status :=
  | NEW | ASSIGNED | IN_PROGRESS | CONTACTED | NEGOTIATING
  | PAYMENT_PLAN | RESOLVED | CLOSED | ESCALATED | LEGAL.

Inductive Priority := P_LOW | P_MEDIUM | P_HIGH | P_CRITICAL.

Inductive AgingCategory := FRESH | LOW | MEDIUM | HIGH | CRITICAL.

Module PaymentStatus.
Inductive t := PENDING | COMPLETED | FAILED | REFUNDED.
End PaymentStatus.

#[global] Instance Case_Status_eq_dec : EqDecision Status.
Proof. solve_decision. Defined.
#[global] Instance AgingCategory_eq_dec : EqDecision AgingCategory.
Proof. solve_decision. Defined.
#[global] Instance PaymentStatus_eq_dec : EqDecision PaymentStatus.t.
Proof. solve_decision. Defined.

Record Communication := mkCommunication {
  commType : string;
  direction : string;
  content : string;
  commCreatedBy : string
}.

Record Payment := mkPayment {
  amount : Q;
  paymentDate : Z;
  transactionId : string;
  paymentStatus : PaymentStatus.t
}.

Record Escalation := mkEscalation {
  level : Z;
  reason : string;
  escalatedBy : string;
  escalatedAt : Z
}.

Record Debt := mkDebt {
  originalAmount : Q;
  currentAmount : Q;
  currency : string;
  dueDate : option Z
}.

Record Sla := mkSla {
  responseTime : Z;
  resolutionTime : Z;
  escalationTime : Z
}.

Record Dates := mkDates {
  firstContact : option Z;
  lastContact : option Z;
  expectedResolution : option Z;
  actualResolution : option Z;
  escalationDate : option Z
}.

Record Aging := mkAging {
  days : Z;
  category : AgingCategory
}.

(** The document.  [isNew] is the library's flag of a document that was
    never stored. *)
Record Doc := mkDoc {
  caseNumber : option string;
  customerId : string;
  debt : Debt;
  status : Status;
  priority : Priority;
  assignedDCA : option string;
  assignedDate : option Z;
  sla : Sla;
  dates : Dates;
  aging : Aging;
  communications : list Communication;
  payments : list Payment;
  escalations : list Escalation;
  isNew : bool
}.

(** Assignments to single paths of the document. *)
Definition set_caseNumber (v : option string) (c : Doc) : Doc :=
  mkDoc v (customerId c) (debt c) (status c) (priority c) (assignedDCA c)
        (assignedDate c) (sla c) (dates c) (aging c) (communications c)
        (payments c) (escalations c) (isNew c).

Definition set_debt (v : Debt) (c : Doc) : Doc :=
  mkDoc (caseNumber c) (customerId c) v (status c) (priority c)
        (assignedDCA c) (assignedDate c) (sla c) (dates c) (aging c)
        (communications c) (payments c) (escalations c) (isNew c).

Definition set_currentAmount (v : Q) (c : Doc) : Doc :=
  set_debt (mkDebt (originalAmount (debt c)) v (currency (debt c))
                   (dueDate (debt c))) c.

Definition set_status (v : Status) (c : Doc) : Doc :=
  mkDoc (caseNumber c) (customerId c) (debt c) v (priority c)
        (assignedDCA c) (assignedDate c) (sla c) (dates c) (aging c)
        (communications c) (payments c) (escalations c) (isNew c).

Definition set_dates (v : Dates) (c : Doc) : Doc :=
  mkDoc (caseNumber c) (customerId c) (debt c) (status c) (priority c)
        (assignedDCA c) (assignedDate c) (sla c) v (aging c)
        (communications c) (payments c) (escalations c) (isNew c).

Definition set_firstContact (v : option Z) (c : Doc) : Doc :=
  set_dates (mkDates v (lastContact (dates c))
                     (expectedResolution (dates c))
                     (actualResolution (dates c))
                     (escalationDate (dates c))) c.

Definition set_lastContact (v : option Z) (c : Doc) : Doc :=
  set_dates (mkDates (firstContact (dates c)) v
                     (expectedResolution (dates c))
                     (actualResolution (dates c))
                     (escalationDate (dates c))) c.

Definition set_escalationDate (v : option Z) (c : Doc) : Doc :=
  set_dates (mkDates (firstContact (dates c)) (lastContact (dates c))
                     (expectedResolution (dates c))
                     (actualResolution (dates c)) v) c.

Definition set_aging (v : Aging) (c : Doc) : Doc :=
  mkDoc (caseNumber c) (customerId c) (debt c) (status c) (priority c)
        (assignedDCA c) (assignedDate c) (sla c) (dates c) v
        (communications c) (payments c) (escalations c) (isNew c).

Definition set_communications (v : list Communication) (c : Doc) : Doc :=
  mkDoc (caseNumber c) (customerId c) (debt c) (status c) (priority c)
        (assignedDCA c) (assignedDate c) (sla c) (dates c) (aging c) v
        (payments c) (escalations c) (isNew c).

Definition set_payments (v : list Payment) (c : Doc) : Doc :=
  mkDoc (caseNumber c) (customerId c) (debt c) (status c) (priority c)
        (assignedDCA c) (assignedDate c) (sla c) (dates c) (aging c)
        (communications c) v (escalations c) (isNew c).

Definition set_escalations (v : list Escalation) (c : Doc) : Doc :=
  mkDoc (caseNumber c) (customerId c) (debt c) (status c) (priority c)
        (assignedDCA c) (assignedDate c) (sla c) (dates c) (aging c)
        (communications c) (payments c) v (isNew c).

(** virtual('totalPaid') *)
Definition totalPaid (c : Doc) : Q :=
  foldl (fun total payment => (total + amount payment)%Q) 0%Q
        (filter (fun payment => paymentStatus payment = PaymentStatus.COMPLETED)
                (payments c)).

(** virtual('remainingBalance') *)
Definition remainingBalance (c : Doc) : Q :=
  Qmax 0 (currentAmount (debt c) - totalPaid c).

(** virtual('recoveryRate') *)
Definition recoveryRate (c : Doc) : Q :=
  if Qeq_bool (originalAmount (debt c)) 0 then 0%Q
  else (totalPaid c / originalAmount (debt c) * 100)%Q.

(** virtual('overdueDays'); the clock is read before the due date is
    looked at. *)
Definition overdueDays (c : Doc) : IO Z :=
  now ← new_Date;
  mret (match dueDate (debt c) with
        | None => 0
        | Some due => if due >? now then 0 else (now - due) / MS_PER_DAY
        end).

(** [this.isNew && !this.caseNumber]: an absent and an empty number are
    both falsy. *)
Definition needsCaseNumber (c : Doc) : bool :=
  isNew c
  && bool_decide (caseNumber c = None \/ caseNumber c = Some EmptyString).

(** pre('save'), first hook: a new case without a number gets the next
    one of the current year. *)
Definition pre_save_caseNumber (c : Doc) : IO Doc :=
  if needsCaseNumber c
  then now ← new_Date;
       year ← Date_getFullYear now;
       count ← countDocuments_in year;
       mret (set_caseNumber
               (Some ("CASE-" +:+ String_of_Z year +:+ "-"
                      +:+ padStart0 6 (String_of_Z (count + 1)))) c)
  else mret c.

(** The thresholds of the aging category. *)
Definition category_of (d : Z) : AgingCategory :=
  if d <=? 0 then FRESH
  else if d <=? 30 then LOW
  else if d <=? 60 then MEDIUM
  else if d <=? 90 then HIGH
  else CRITICAL.

(** pre('save'), second hook: aging follows the due date. *)
Definition pre_save_aging (c : Doc) : IO Doc :=
  match dueDate (debt c) with
  | Some _ =>
      d ← overdueDays c;
      mret (set_aging (mkAging d (category_of d)) c)
  | None => mret c
  end.

(** pre('save'), third hook: the current amount follows the payments. *)
Definition pre_save_currentAmount (c : Doc) : Doc :=
  match payments c with
  | [] => c
  | _ :: _ =>
      let totalPaid := totalPaid c in
      set_currentAmount (Qmax 0 (originalAmount (debt c) - totalPaid)) c
  end.

Definition save (c : Doc) : IO Doc :=
  c1 ← pre_save_caseNumber c;
  c2 ← pre_save_aging c1;
  mret (pre_save_currentAmount c2).

(** methods.addCommunication *)
Definition addCommunication (communication : Communication) (c : Doc)
  : IO Doc :=
  let c := set_communications (communications c ++ [communication]) c in
  t ← new_Date;
  let c := set_lastContact (Some t) c in
  c ← match firstContact (dates c) with
      | None => t' ← new_Date; mret (set_firstContact (Some t') c)
      | Some _ => mret c
      end;
  save c.

(** Successive calls of [addCommunication] on the same document. *)
Fixpoint addCommunication_each (l : list Communication) (c : Doc)
  : IO Doc :=
  match l with
  | [] => mret c
  | communication :: l' =>
      c' ← addCommunication communication c;
      addCommunication_each l' c'
  end.

(** methods.addPayment *)
Definition addPayment (payment : Payment) (c : Doc) : IO Doc :=
  save (set_payments (payments c ++ [payment]) c).

(** methods.escalate *)
Definition escalate (escalation : Escalation) (c : Doc) : IO Doc :=
  let c := set_escalations (escalations c ++ [escalation]) c in
  let c := set_status ESCALATED c in
  t ← new_Date;
  save (set_escalationDate (Some t) c).

(** *** Vocabulary of the properties *)

(** The current amount agrees with the completed payments. *)
Definition amount_invariant (c : Doc) : Prop :=
  currentAmount (debt c) = Qmax 0 (originalAmount (debt c) - totalPaid c).

(** [c'] differs from [c] at most in the paths the pre-save hooks
    assign: [caseNumber], [aging] and [debt.currentAmount]. *)
Definition same_raw_fields (c c' : Doc) : Prop :=
  customerId c' = customerId c /\
  originalAmount (debt c') = originalAmount (debt c) /\
  currency (debt c') = currency (debt c) /\
  dueDate (debt c') = dueDate (debt c) /\
  status c' = status c /\
  priority c' = priority c /\
  assignedDCA c' = assignedDCA c /\
  assignedDate c' = assignedDate c /\
  sla c' = sla c /\
  dates c' = dates c /\
  communications c' = communications c /\
  payments c' = payments c /\
  escalations c' = escalations c /\
  isNew c' = isNew c.

(** The paths that neither a save, nor [addCommunication], nor
    [escalate] assigns. *)
Definition same_untouched_fields (c c' : Doc) : Prop :=
  customerId c' = customerId c /\
  originalAmount (debt c') = originalAmount (debt c) /\
  currency (debt c') = currency (debt c) /\
  dueDate (debt c') = dueDate (debt c) /\
  priority c' = priority c /\
  assignedDCA c' = assignedDCA c /\
  assignedDate c' = assignedDate c /\
  sla c' = sla c /\
  expectedResolution (dates c') = expectedResolution (dates c) /\
  actualResolution (dates c') = actualResolution (dates c) /\
  payments c' = payments c /\
  isNew c' = isNew c.

End Case.

(** ** Sample worlds and documents *)
Module Samples.

(** A clock that advances by a second at each reading, in a year with 41
    stored cases. *)
Definition world0 : World :=
  mkWorld (fun n => 1700000000000 + 1000 * Z.of_nat n) 0
          (fun _ => 2023) (fun _ => 41).

Definition dca_with (max load : Z) : DCA.Doc :=
  DCA.mkDoc "Apex Recovery" "REG-001"
    (DCA.mkLicensing [] DCA.UNDER_REVIEW)
    (DCA.mkCapacity max load 4)
    (DCA.mkPerformance 0 0 0 [])
    DCA.ContractStatus.ACTIVE DCA.ACTIVE
    (DCA.mkFlags false false true false) false.

Definition metrics_of_month (m : Z) : DCA.MonthlyMetric :=
  DCA.mkMonthlyMetric m 10 2500 50 90 4.

(** Two years of history: months 1 to 24. *)
Definition seasoned_dca : DCA.Doc :=
  DCA.set_monthlyMetrics (map metrics_of_month (seqZ 1 24)) (dca_with 5 0).

(** No case assigned yet. *)
Definition idle_dca : DCA.Doc := dca_with 5 0.

(** Every slot taken. *)
Definition full_dca : DCA.Doc := dca_with 5 5.

(** The maximum was lowered to 3 while 5 cases are assigned, and the
    document was not saved since. *)
Definition overloaded_dca : DCA.Doc := dca_with 3 5.

Definition case_with (original current : Q) (due : option Z)
    (st : Case.Status) (ag : Case.Aging) (ps : list Case.Payment)
  : Case.Doc :=
  Case.mkDoc (Some "CASE-2023-000007") "CUST-42"
    (Case.mkDebt original current "USD" due)
    st Case.P_MEDIUM None None (Case.mkSla 24 72 48)
    (Case.mkDates None None None None None) ag [] ps [] false.

Definition payment400 : Case.Payment :=
  Case.mkPayment 400 1699000000000 "TX-1" Case.PaymentStatus.COMPLETED.

Definition fresh_aging : Case.Aging := Case.mkAging 0 Case.FRESH.

(** A debt of 1000 with nothing paid. *)
Definition fresh_case : Case.Doc :=
  case_with 1000 1000 None Case.NEW fresh_aging [].

(** A debt of 1000 taken over at 500, without recorded payments. *)
Definition partial_case : Case.Doc :=
  case_with 1000 500 None Case.NEW fresh_aging [].

(** A completed payment of 400 whose effect was not saved yet. *)
Definition paid_case : Case.Doc :=
  case_with 1000 1000 None Case.CONTACTED fresh_aging [payment400].

(** Due forty days before [world0]'s first instant, aging last computed
    on the due date. *)
Definition stale_case : Case.Doc :=
  case_with 1000 1000 (Some (1700000000000 - 40 * MS_PER_DAY))
            Case.ASSIGNED fresh_aging [].

(** Contacted once already. *)
Definition contacted_case : Case.Doc :=
  Case.set_firstContact (Some 1690000000000)
    (Case.set_lastContact (Some 1690000000000)
       (case_with 1000 1000 None Case.CONTACTED fresh_aging [])).

Definition closed_case : Case.Doc :=
  case_with 1000 0 None Case.CLOSED fresh_aging [].

Definition sla_breach : Case.Escalation :=
  Case.mkEscalation 1 "SLA_BREACH" "USER-1" 1700000000000.

Definition reminder : Case.Communication :=
  Case.mkCommunication "EMAIL" "OUTBOUND" "Payment reminder" "USER-1".

End Samples.

(** ** models/DCA.js: the remaining virtual, the queries, and call sequences *)
Module DCAMore.
Import DCA.

(** virtual('capacityUtilization') *)
Definition capacityUtilization (d : Doc) : Q :=
  if maxConcurrentCases (capacity d) =? 0 then 0%Q
  else (inject_Z (currentCaseLoad (capacity d))
        / inject_Z (maxConcurrentCases (capacity d)) * 100)%Q.

(** The filter of [statics.findActive]. *)
Definition active (d : Doc) : Prop :=
  status d = ACTIVE /\ contractStatus d = ContractStatus.ACTIVE /\
  isBlacklisted (flags d) = false.

(** statics.findActive, over the stored documents. *)
Definition findActive (collection : list Doc) : list Doc :=
  filter active collection.

(** statics.findAvailable; [None] is a call without argument
    ([minCapacity = 1]).  The query compares the difference of the two
    counters, not the virtual. *)
Definition findAvailable (minCapacity : option Z) (collection : list Doc)
  : list Doc :=
  let n := default 1 minCapacity in
  filter (fun d =>
            active d /\
            n <= maxConcurrentCases (capacity d) - currentCaseLoad (capacity d))
         collection.

(** A caller that reserves [n] times in a row on the same document,
    catching the error of a refused reservation; it returns how each call
    ended. *)
Fixpoint assignCase_times (n : nat) (d : Doc) : IO (list Outcome * Doc) :=
  match n with
  | O => mret ([], d)
  | S n' =>
      r ← assignCase d;
      rest ← assignCase_times n' r.2;
      mret (r.1 :: rest.1, rest.2)
  end.

(** The calls that touch the capacity or end in a save. *)
Inductive Call :=
  | AssignCase
  | ReleaseCase
  | AddMonthlyMetrics (monthlyData : MonthlyMetric).

Definition perform (call : Call) (d : Doc) : IO Doc :=
  match call with
  | AssignCase => r ← assignCase d; mret r.2
  | ReleaseCase => releaseCase d
  | AddMonthlyMetrics monthlyData => addMonthlyMetrics monthlyData d
  end.

Fixpoint perform_all (calls : list Call) (d : Doc) : IO Doc :=
  match calls with
  | [] => mret d
  | call :: calls' => d' ← perform call d; perform_all calls' d'
  end.

(** The invariant of the capacity counters. *)
Definition load_in_bounds (d : Doc) : Prop :=
  0 <= currentCaseLoad (capacity d) <= maxConcurrentCases (capacity d).

(** Assigning [licensing.licenses]; the library marks the path modified. *)
Definition set_licenses (v : list License) (d : Doc) : Doc :=
  mkDoc (name d) (registrationNumber d)
        (mkLicensing v (complianceStatus (licensing d)))
        (capacity d) (performance d) (contractStatus d) (status d)
        (flags d) true.

(** A license in force at the instant [now]: ACTIVE and not expired. *)
Definition in_force (now : Z) (license : License) : Prop :=
  licenseStatus license = LicenseStatus.ACTIVE /\
  forall e, expiryDate license = Some e -> now < e.

End DCAMore.

(** ** models/Case.js: validators, static queries and call sequences *)
Module CaseMore.
Import Case.

(** The [min] validators of the schema on the amounts. *)
Definition amounts_valid (c : Doc) : Prop :=
  (0 <= originalAmount (debt c))%Q /\
  Forall (fun payment => (0 <= amount payment)%Q) (payments c).

(** The aging categories in the order of their thresholds. *)
Definition category_rank (a : AgingCategory) : Z :=
  match a with
  | FRESH => 0 | LOW => 1 | MEDIUM => 2 | HIGH => 3 | CRITICAL => 4
  end.

(** The filter of [statics.findOverdue]: a due date before [now] and a
    status outside RESOLVED and CLOSED. *)
Definition overdue_at (now : Z) (c : Doc) : bool :=
  match dueDate (debt c) with
  | Some due => due <? now
  | None => false
  end
  && negb (bool_decide (status c = RESOLVED \/ status c = CLOSED)).

(** statics.findOverdue, at the instant the query is built. *)
Definition findOverdue (collection : list Doc) : IO (list Doc) :=
  now ← new_Date;
  mret (filter (fun c => overdue_at now c = true) collection).

(** statics.findByStatus *)
Definition findByStatus (st : Status) (collection : list Doc) : list Doc :=
  filter (fun c => status c = st) collection.

(** The calls that record something on a case. *)
Inductive Call :=
  | AddCommunication (communication : Communication)
  | AddPayment (payment : Payment)
  | Escalate (escalation : Escalation)
  | Save.

Definition perform (call : Call) (c : Doc) : IO Doc :=
  match call with
  | AddCommunication communication => addCommunication communication c
  | AddPayment payment => addPayment payment c
  | Escalate escalation => escalate escalation c
  | Save => save c
  end.

Fixpoint perform_all (calls : list Call) (c : Doc) : IO Doc :=
  match calls with
  | [] => mret c
  | call :: calls' => c' ← perform call c; perform_all calls' c'
  end.

(** What a sequence of calls is expected to record, in call order. *)
Definition recorded_communications (calls : list Call) : list Communication :=
  omap (fun call => match call with
                    | AddCommunication x => Some x | _ => None end) calls.

Definition recorded_payments (calls : list Call) : list Payment :=
  omap (fun call => match call with
                    | AddPayment x => Some x | _ => None end) calls.

Definition recorded_escalations (calls : list Call) : list Escalation :=
  omap (fun call => match call with
                    | Escalate x => Some x | _ => None end) calls.

(** Reading a decimal numeral back, leading zeros allowed. *)
Definition Z_of_string (s : string) : option Z :=
  Z.of_int <$> NilZero.int_of_string s.

(** A case as the constructor leaves it: never stored, without number. *)
Definition new_case : Doc :=
  mkDoc None "CUST-43" (mkDebt 250 250 "USD" None) NEW P_MEDIUM None None
        (mkSla 24 72 48) (mkDates None None None None None)
        (mkAging 0 FRESH) [] [] [] true.

End CaseMore.

(** ** models/User.js *)

(** [s.split(' ')]: the pieces between the separators, at least one. *)
Definition SPACE : Ascii.ascii := Ascii.ascii_of_nat 32.

Fixpoint split_on (sep : Ascii.ascii) (s : string) : list string :=
  match s with
  | EmptyString => [EmptyString]
  | String a s' =>
      let rest := split_on sep s' in
      if Ascii.eqb a sep then EmptyString :: rest
      else match rest with
           | piece :: pieces => String a piece :: pieces
           | [] => [String a EmptyString]
           end
  end.

(** A string without a space. *)
Fixpoint spaceless (s : string) : bool :=
  match s with
  | EmptyString => true
  | String a s' => negb (Ascii.eqb a SPACE) && spaceless s'
  end.

(** The header the front end's request interceptor sets:
    [`Bearer ${token}`]. *)
Definition bearer_header (token : string) : string :=
  ("Bearer " +:+ token)%string.

Module User.

Inductive Role := admin | enterprise_manager | dca_user.

#[global] Instance Role_eq_dec : EqDecision Role.
Proof. solve_decision. Defined.

(** The string a role is stored as. *)
Definition role_name (r : Role) : string :=
  match r with
  | admin => "admin"
  | enterprise_manager => "enterprise_manager"
  | dca_user => "dca_user"
  end.

(** An entry of [refreshTokens] (its [createdAt] default is the
    library's and is not read by the code). *)
Record RefreshToken := mkRefreshToken {
  token : string;
  expiresAt : Z;
  deviceInfo : string
}.

(** The document.  [loginAttempts] is absent after an [$unset]; read from
    a loaded document an absent counter is 0.  [isNew],
    [passwordModified] and [roleModified] are the library's flags
    ([this.isNew], [this.isModified('password')],
    [this.isModified('role')]). *)
Record Doc := mkDoc {
  id : string;
  email : string;
  password : option string;
  role : Role;
  permissions : list string;
  dcaId : option string;
  isActive : bool;
  passwordChangedAt : option Z;
  loginAttempts : option Z;
  lockUntil : option Z;
  refreshTokens : list RefreshToken;
  lastLogin : option Z;
  lastActivity : option Z;
  isNew : bool;
  passwordModified : bool;
  roleModified : bool
}.

(** Assignments to single paths of the document. *)
Definition set_password (v : option string) (u : Doc) : Doc :=
  mkDoc (id u) (email u) v (role u) (permissions u) (dcaId u) (isActive u)
        (passwordChangedAt u) (loginAttempts u) (lockUntil u)
        (refreshTokens u) (lastLogin u) (lastActivity u) (isNew u)
        (passwordModified u) (roleModified u).

Definition set_permissions (v : list string) (u : Doc) : Doc :=
  mkDoc (id u) (email u) (password u) (role u) v (dcaId u) (isActive u)
        (passwordChangedAt u) (loginAttempts u) (lockUntil u)
        (refreshTokens u) (lastLogin u) (lastActivity u) (isNew u)
        (passwordModified u) (roleModified u).

Definition set_passwordChangedAt (v : option Z) (u : Doc) : Doc :=
  mkDoc (id u) (email u) (password u) (role u) (permissions u) (dcaId u)
        (isActive u) v (loginAttempts u) (lockUntil u)
        (refreshTokens u) (lastLogin u) (lastActivity u) (isNew u)
        (passwordModified u) (roleModified u).

Definition set_loginAttempts (v : option Z) (u : Doc) : Doc :=
  mkDoc (id u) (email u) (password u) (role u) (permissions u) (dcaId u)
        (isActive u) (passwordChangedAt u) v (lockUntil u)
        (refreshTokens u) (lastLogin u) (lastActivity u) (isNew u)
        (passwordModified u) (roleModified u).

Definition set_lockUntil (v : option Z) (u : Doc) : Doc :=
  mkDoc (id u) (email u) (password u) (role u) (permissions u) (dcaId u)
        (isActive u) (passwordChangedAt u) (loginAttempts u) v
        (refreshTokens u) (lastLogin u) (lastActivity u) (isNew u)
        (passwordModified u) (roleModified u).

Definition set_refreshTokens (v : list RefreshToken) (u : Doc) : Doc :=
  mkDoc (id u) (email u) (password u) (role u) (permissions u) (dcaId u)
        (isActive u) (passwordChangedAt u) (loginAttempts u) (lockUntil u)
        v (lastLogin u) (lastActivity u) (isNew u)
        (passwordModified u) (roleModified u).

Definition set_lastLogin (v : option Z) (u : Doc) : Doc :=
  mkDoc (id u) (email u) (password u) (role u) (permissions u) (dcaId u)
        (isActive u) (passwordChangedAt u) (loginAttempts u) (lockUntil u)
        (refreshTokens u) v (lastActivity u) (isNew u)
        (passwordModified u) (roleModified u).

Definition set_lastActivity (v : option Z) (u : Doc) : Doc :=
  mkDoc (id u) (email u) (password u) (role u) (permissions u) (dcaId u)
        (isActive u) (passwordChangedAt u) (loginAttempts u) (lockUntil u)
        (refreshTokens u) (lastLogin u) v (isNew u)
        (passwordModified u) (roleModified u).

(** [Date.now()]: a reading of the clock, like [new Date()]. *)
Definition Date_now : IO Z := new_Date.

(** virtual('isLocked'); the clock is read only when a lock is set. *)
Definition isLocked (u : Doc) : IO bool :=
  match lockUntil u with
  | None => mret false
  | Some l => now ← Date_now; mret (l >? now)
  end.

(** The permission lists of the second pre-save hook. *)
Definition admin_permissions : list string :=
  ["cases.view"; "cases.create"; "cases.edit"; "cases.delete";
   "dcas.view"; "dcas.create"; "dcas.edit"; "dcas.delete";
   "users.view"; "users.create"; "users.edit"; "users.delete";
   "analytics.view"; "analytics.advanced";
   "workflows.view"; "workflows.manage";
   "notifications.view"; "notifications.send";
   "system.admin"]%string.

Definition enterprise_manager_permissions : list string :=
  ["cases.view"; "cases.create"; "cases.edit";
   "dcas.view"; "dcas.create"; "dcas.edit";
   "users.view";
   "analytics.view"; "analytics.advanced";
   "workflows.view";
   "notifications.view"; "notifications.send"]%string.

Definition dca_user_permissions : list string :=
  ["cases.view"; "cases.edit";
   "analytics.view";
   "notifications.view"]%string.

Definition role_permissions (r : Role) : list string :=
  match r with
  | admin => admin_permissions
  | enterprise_manager => enterprise_manager_permissions
  | dca_user => dca_user_permissions
  end.

Section Hooks.

(** [bcrypt.hash], which may reject, and the parsed
    [process.env.BCRYPT_SALT_ROUNDS] ([None] when it is not a number). *)
Variable bcrypt_hash : option string -> Z -> JsError + string.
Variable BCRYPT_SALT_ROUNDS : option Z.

(** [parseInt(process.env.BCRYPT_SALT_ROUNDS) || 12] *)
Definition saltRounds : Z :=
  match BCRYPT_SALT_ROUNDS with
  | Some n => if n =? 0 then 12 else n
  | None => 12
  end.

(** pre('save'), first hook: a modified password is hashed, and on a
    stored user the change is dated one second back. *)
Definition pre_save_password (u : Doc) : IO (Outcome * Doc) :=
  if negb (passwordModified u) then mret (Completed, u)
  else match bcrypt_hash (password u) saltRounds with
       | inr hashed =>
           let u := set_password (Some hashed) u in
           if negb (isNew u)
           then now ← Date_now;
                mret (Completed, set_passwordChangedAt (Some (now - 1000)) u)
           else mret (Completed, u)
       | inl error => mret (Throws error, u)
       end.

(** pre('save'), second hook: the permissions follow the role. *)
Definition pre_save_permissions (u : Doc) : Doc :=
  if roleModified u || isNew u
  then set_permissions (role_permissions (role u)) u
  else u.

(** A failed hook ends the save; the later hooks do not run. *)
Definition save (u : Doc) : IO (Outcome * Doc) :=
  r ← pre_save_password u;
  match r.1 with
  | Completed => mret (Completed, pre_save_permissions r.2)
  | Throws error => mret (Throws error, r.2)
  end.

End Hooks.

(** methods.generateRefreshToken.  [refreshToken] is what [jwt.sign]
    returned; [None] for [deviceInfo] is a call without argument. *)
Definition generateRefreshToken
    (refreshToken : string) (deviceInfo : option string) (u : Doc)
  : IO (string * Doc) :=
  now ← Date_now;
  let pushed :=
    refreshTokens u
    ++ [mkRefreshToken refreshToken (now + 30 * 24 * 60 * 60 * 1000)
                       (default EmptyString deviceInfo)] in
  let kept := if (5 <? length pushed)%nat then slice (-5) pushed
              else pushed in
  mret (refreshToken, set_refreshTokens kept u).

(** methods.changedPasswordAfter; [parseInt(ms / 1000, 10)] drops the
    fraction. *)
Definition changedPasswordAfter (JWTTimestamp : Z) (u : Doc) : bool :=
  match passwordChangedAt u with
  | Some changed => JWTTimestamp <? changed ÷ 1000
  | None => false
  end.

(** [this.loginAttempts] as the comparisons see it. *)
Definition attempts (u : Doc) : Z := default 0 (loginAttempts u).

(** methods.incLoginAttempts: the stored document after the [updateOne],
    for a stored document that agrees with [this]. *)
Definition incLoginAttempts (u : Doc) : IO Doc :=
  expired ← match lockUntil u with
            | Some l => now ← Date_now; mret (l <? now)
            | None => mret false
            end;
  if expired : bool
  then mret (set_loginAttempts (Some 1) (set_lockUntil None u))
  else
    let incremented := set_loginAttempts (Some (attempts u + 1)) u in
    lock ← (if attempts u + 1 >=? 5
            then locked ← isLocked u; mret (negb locked)
            else mret false);
    if lock : bool
    then now ← Date_now;
         mret (set_lockUntil (Some (now + 2 * 60 * 60 * 1000)) incremented)
    else mret incremented.

(** methods.resetLoginAttempts: the stored document after the
    [updateOne]. *)
Definition resetLoginAttempts (u : Doc) : Doc :=
  set_loginAttempts None (set_lockUntil None u).

(** methods.hasPermission *)
Definition hasPermission (permission : string) (u : Doc) : bool :=
  bool_decide (permission ∈ permissions u) || bool_decide (role u = admin).

(** Failed logins in a row, each on the document the previous one
    stored. *)
Fixpoint incLoginAttempts_times (n : nat) (u : Doc) : IO Doc :=
  match n with
  | O => mret u
  | S n' => u' ← incLoginAttempts u; incLoginAttempts_times n' u'
  end.

(** Refresh tokens issued in a row, each on the document the previous
    call left; [signed] are the strings [jwt.sign] returned. *)
Fixpoint generateRefreshToken_each (signed : list string) (u : Doc)
  : IO Doc :=
  match signed with
  | [] => mret u
  | refreshToken :: signed' =>
      r ← generateRefreshToken refreshToken None u;
      generateRefreshToken_each signed' r.2
  end.

(** The last [n] entries of a list. *)
Definition keep_last {A} (n : nat) (l : list A) : list A :=
  drop (length l - n) l.

(** Thirty days in milliseconds, [30 * 24 * 60 * 60 * 1000]. *)
Definition THIRTY_DAYS : Z := 30 * 24 * 60 * 60 * 1000.

(** The test of [validateRefreshToken] on the user's tokens:
    [refreshTokens.some(t => t.token === refreshToken && t.expiresAt > new Date())];
    the clock is read for each entry that carries the token, up to the
    first unexpired one. *)
Fixpoint tokenExists (refreshToken : string) (tokens : list RefreshToken)
  : IO bool :=
  match tokens with
  | [] => mret false
  | tokenObj :: tokens' =>
      if String.eqb (token tokenObj) refreshToken
      then now ← new_Date;
           if expiresAt tokenObj >? now then mret true
           else tokenExists refreshToken tokens'
      else tokenExists refreshToken tokens'
  end.

End User.

(** ** Sample users *)
Module UserSamples.

Definition user_with (r : User.Role) (perms : list string)
    (attempts lock : option Z) (new : bool) : User.Doc :=
  User.mkDoc "64a000000000000000000001" "agent@example.com"
    (Some "$2a$12$storedhash") r perms None true None attempts lock []
    None None new false false.

(** A stored manager with the permissions of the role. *)
Definition manager : User.Doc :=
  user_with User.enterprise_manager User.enterprise_manager_permissions
            None None false.

(** A stored agency user with the permissions of the role. *)
Definition agent : User.Doc :=
  user_with User.dca_user User.dca_user_permissions None None false.

(** An administrator whose permission list was emptied. *)
Definition bare_admin : User.Doc :=
  user_with User.admin [] None None false.

(** Locked until one hour after [Samples.world0]'s first instant, after
    five failures. *)
Definition locked_user : User.Doc :=
  user_with User.dca_user User.dca_user_permissions
            (Some 5) (Some (1700000000000 + 3600000)) false.

(** A registration that asks for more than its role gives. *)
Definition greedy_registration : User.Doc :=
  user_with User.dca_user ["system.admin"; "users.delete"]%string
            None None true.

(** A stand-in for [bcrypt.hash] that rejects a missing password. *)
Definition demo_hash (p : option string) (cost : Z) : JsError + string :=
  match p with
  | Some s => inr ("hashed:" +:+ s)%string
  | None => inl (Error "Illegal arguments")
  end.

(** A stand-in for [bcrypt.compare] that goes with [demo_hash]. *)
Definition demo_compare (candidate hashed : string) : bool :=
  String.eqb hashed ("hashed:" +:+ candidate).

(** A stored agency user whose password is s3cret, with two failed
    logins on record. *)
Definition registered : User.Doc :=
  User.mkDoc "64a000000000000000000002" "collector@example.com"
    (Some "hashed:s3cret") User.dca_user User.dca_user_permissions
    (Some "64b000000000000000000001") true None (Some 2) None []
    None None false false false.

(** A stored manager who has just typed a new password. *)
Definition changing_user : User.Doc :=
  User.mkDoc "64a000000000000000000001" "agent@example.com"
    (Some "N3w-passw0rd!") User.enterprise_manager
    User.enterprise_manager_permissions None true None None None []
    None None false true false.

End UserSamples.

(** ** middleware/auth.js *)
Module AuthMiddleware.

(** The JSON body sent with [res.status(statusCode).json(...)];
    [success] is false in every response of this file. *)
Record Response := mkResponse {
  statusCode : Z;
  message : string;
  code : option string
}.

(** A middleware either answers or calls [next()], passing on what it
    attached to the request. *)
Inductive Step (A : Type) : Type :=
  | Respond (response : Response)
  | Next (attached : A).
Arguments Respond {A} response.
Arguments Next {A} attached.

(** What is written to the log. *)
Inductive LogEntry :=
  | Security (event : string)
  | ErrorLog (error : JsError).

(** How [jwt.verify] fails. *)
Inductive JwtFailure :=
  | TokenExpiredError
  | JsonWebTokenError
  | OtherFailure (error : JsError).

(** The payload [jwt.verify] returns. *)
Record Decoded := mkDecoded {
  decoded_id : string;
  iat : Z;
  type : option string
}.

(** The token of an [Authorization] header: the piece after the first
    space of a header that starts with Bearer. *)
Definition bearer_token (authorization : option string) : option string :=
  match authorization with
  | Some header =>
      if String.prefix "Bearer" header
      then split_on SPACE header !! 1%nat
      else None
  | None => None
  end.

(** [!value] for a string that may be missing. *)
Definition falsy (value : option string) : bool :=
  match value with
  | None => true
  | Some s => String.eqb s EmptyString
  end.

(** authorize(...roles) *)
Definition authorize (roles : list string) (user : option User.Doc)
  : Step unit * list LogEntry :=
  match user with
  | None => (Respond (mkResponse 401 "Authentication required." None), [])
  | Some u =>
      if bool_decide (User.role_name (User.role u) ∈ roles)
      then (Next tt, [])
      else (Respond (mkResponse 403
                       "Access denied. Insufficient permissions." None),
            [Security "Unauthorized access attempt"])
  end.

(** requirePermission(permission) *)
Definition requirePermission (permission : string) (user : option User.Doc)
  : Step unit * list LogEntry :=
  match user with
  | None => (Respond (mkResponse 401 "Authentication required." None), [])
  | Some u =>
      if User.hasPermission permission u
      then (Next tt, [])
      else (Respond (mkResponse 403
                       ("Access denied. Required permission: " +:+ permission)
                       None),
            [Security "Permission denied"])
  end.

Section Stores.

(** [DCA.findById] and [User.findById], which may throw, [jwt.verify],
    and the oracles of the user's save. *)
Variable DCA_findById : string -> JsError + option DCA.Doc.
Variable User_findById : string -> JsError + option User.Doc.
Variable jwt_verify : string -> JwtFailure + Decoded.
Variable bcrypt_hash : option string -> Z -> JsError + string.
Variable BCRYPT_SALT_ROUNDS : option Z.

(** requireDCAAssociation; on [next()] the DCA found, if any, is attached
    as [req.dca]. *)
Definition requireDCAAssociation (user : option User.Doc)
  : Step (option DCA.Doc) * list LogEntry :=
  match user with
  | None => (Respond (mkResponse 401 "Authentication required." None), [])
  | Some u =>
      if bool_decide (User.role u = User.dca_user)
      then match User.dcaId u with
           | None =>
               (Respond (mkResponse 403 "DCA association required." None), [])
           | Some dcaId =>
               match DCA_findById dcaId with
               | inl error =>
                   (Respond (mkResponse 500 "DCA association check failed."
                                        None),
                    [ErrorLog error])
               | inr found =>
                   match found with
                   | Some dca =>
                       if bool_decide (DCA.status dca = DCA.ACTIVE)
                       then (Next (Some dca), [])
                       else (Respond (mkResponse 403
                                        "Associated DCA is not active." None),
                             [])
                   | None =>
                       (Respond (mkResponse 403
                                   "Associated DCA is not active." None), [])
                   end
               end
           end
      else (Next None, [])
  end.

Definition authentication_error (error : JsError)
  : Step User.Doc * list LogEntry :=
  (Respond (mkResponse 500 "Authentication error occurred." None),
   [ErrorLog error]).

(** authenticate; on [next()] the user is attached as [req.user]. *)
Definition authenticate (authorization : option string)
  : IO (Step User.Doc * list LogEntry) :=
  let token := bearer_token authorization in
  if falsy token
  then mret (Respond (mkResponse 401 "Access denied. No token provided."
                                 None), [])
  else
    match jwt_verify (default EmptyString token) with
    | inl TokenExpiredError =>
        mret (Respond (mkResponse 401
                         "Token has expired. Please log in again."
                         (Some "TOKEN_EXPIRED"%string)), [])
    | inl JsonWebTokenError =>
        mret (Respond (mkResponse 401 "Invalid token format."
                                  (Some "INVALID_TOKEN"%string)), [])
    | inl (OtherFailure error) => mret (authentication_error error)
    | inr decoded =>
        match User_findById (decoded_id decoded) with
        | inl error => mret (authentication_error error)
        | inr None =>
            mret (Respond (mkResponse 401
                             "Token is invalid. User not found." None), [])
        | inr (Some user) =>
            if negb (User.isActive user)
            then mret (Respond (mkResponse 401
                     "Account is deactivated. Please contact administrator."
                     None), [])
            else
              locked ← User.isLocked user;
              if locked : bool
              then mret (Respond (mkResponse 401
 "Account is temporarily locked due to multiple failed login attempts."
                       None), [])
              else if User.changedPasswordAfter (iat decoded) user
              then mret (Respond (mkResponse 401
                       "Password was recently changed. Please log in again."
                       None), [])
              else
                now ← new_Date;
                saved ← User.save bcrypt_hash BCRYPT_SALT_ROUNDS
                          (User.set_lastActivity (Some now) user);
                match saved.1 with
                | Completed => mret (Next saved.2, [])
                | Throws error => mret (authentication_error error)
                end
        end
    end.

(** validateRefreshToken, on the [refreshToken] field of the request
    body ([None] when the body lacks it); on [next()] the user is attached
    as [req.user] (and the token as [req.refreshToken]).  Whatever is
    thrown after the token was found in the body is answered as an
    invalid token. *)
Definition validateRefreshToken (refreshToken : option string)
  : IO (Step User.Doc * list LogEntry) :=
  if falsy refreshToken
  then mret (Respond (mkResponse 401 "Refresh token is required." None), [])
  else
    let invalid : Step User.Doc * list LogEntry :=
      (Respond (mkResponse 401 "Invalid refresh token."
                           (Some "INVALID_REFRESH_TOKEN"%string)), []) in
    let presented := default EmptyString refreshToken in
    match jwt_verify presented with
    | inl _ => mret invalid
    | inr decoded =>
        if negb (bool_decide (type decoded = Some "refresh"%string))
        then mret (Respond (mkResponse 401 "Invalid token type." None), [])
        else
          match User_findById (decoded_id decoded) with
          | inl _ => mret invalid
          | inr None =>
              mret (Respond (mkResponse 401 "User not found." None), [])
          | inr (Some user) =>
              exists_ ← User.tokenExists presented (User.refreshTokens user);
              if exists_ : bool
              then mret (Next user, [])
              else mret (Respond (mkResponse 401
                                    "Invalid or expired refresh token." None),
                         [])
          end
    end.

(** optionalAuth: it always calls [next()]; the user is attached only
    when everything checks. *)
Definition optionalAuth (authorization : option string)
  : IO (option User.Doc) :=
  let token := bearer_token authorization in
  if falsy token then mret None
  else
    match jwt_verify (default EmptyString token) with
    | inl _ => mret None
    | inr decoded =>
        match User_findById (decoded_id decoded) with
        | inr (Some user) =>
            if User.isActive user
            then locked ← User.isLocked user;
                 mret (if locked : bool then None else Some user)
            else mret None
        | _ => mret None
        end
    end.

(** The conditions under which a request is known to come from [user]:
    a Bearer token that verifies, for a stored, active user who is not
    locked at the instant of the check. *)
Definition identified (authorization : option string) (w : World)
    (decoded : Decoded) (user : User.Doc) : Prop :=
  exists token,
    bearer_token authorization = Some token /\
    token <> EmptyString /\
    jwt_verify token = inr decoded /\
    User_findById (decoded_id decoded) = inr (Some user) /\
    User.isActive user = true /\
    (User.isLocked user w).1 = false.

(** The number of clock readings [isLocked] makes on a user. *)
Definition lock_reads (user : User.Doc) : nat :=
  match User.lockUntil user with Some _ => 1 | None => 0 end.

End Stores.

End AuthMiddleware.

(** ** Sample stores and tokens *)
Module AuthSamples.

(** A stand-in for [jwt.verify]: one access token and one refresh token
    of [UserSamples.registered], issued a second before
    [Samples.world0]'s first instant, and one expired token. *)
Definition demo_verify (token : string)
  : AuthMiddleware.JwtFailure + AuthMiddleware.Decoded :=
  if String.eqb token "access-1"
  then inr (AuthMiddleware.mkDecoded "64a000000000000000000002"
                                     1699999999 None)
  else if String.eqb token "rt-1"
  then inr (AuthMiddleware.mkDecoded "64a000000000000000000002"
                                     1699999999 (Some "refresh"%string))
  else if String.eqb token "old"
  then inl AuthMiddleware.TokenExpiredError
  else inl AuthMiddleware.JsonWebTokenError.

(** A store that holds [UserSamples.registered] only. *)
Definition demo_users (id : string) : JsError + option User.Doc :=
  if String.eqb id "64a000000000000000000002"
  then inr (Some UserSamples.registered)
  else inr None.

End AuthSamples.

(** ** middleware/errorHandler.js *)
Module ErrorHandler.

(** class AppError: the status is fail when the decimal numeral of the
    status code starts with 4, and error otherwise. *)
Record AppError := mkAppError {
  message : string;
  statusCode : Z;
  status : string;
  isOperational : bool
}.

Definition new_AppError (message : string) (statusCode : Z) : AppError :=
  mkAppError message statusCode
             (if String.prefix "4" (String_of_Z statusCode)
              then "fail" else "error")%string
             true.

(** notFound: the error passed to [next]. *)
Definition notFound (originalUrl : string) : AppError :=
  new_AppError ("Can't find " +:+ originalUrl +:+ " on this server!") 404.

(** handleValidationError, on the messages of the validation errors. *)
Definition handleValidationError (messages : list string) : AppError :=
  new_AppError ("Validation failed: " +:+ String.concat ", " messages) 400.

(** handleDBConnectionError; the error itself is logged. *)
Definition handleDBConnectionError : AppError :=
  new_AppError "Database connection failed. Please try again later." 503.

(** handleFileUploadError, on the [code] of the upload error. *)
Definition handleFileUploadError (code : option string) : AppError :=
  if bool_decide (code = Some "LIMIT_FILE_SIZE"%string)
  then new_AppError "File too large. Maximum size allowed is 10MB." 400
  else if bool_decide (code = Some "LIMIT_FILE_COUNT"%string)
  then new_AppError "Too many files. Maximum 10 files allowed." 400
  else if bool_decide (code = Some "LIMIT_UNEXPECTED_FILE"%string)
  then new_AppError "Unexpected file field." 400
  else new_AppError "File upload failed." 400.

(** handleExternalAPIError, on the [code] of the error and on the status
    and status text of its [response], if any; the error itself is
    logged. *)
Definition handleExternalAPIError
    (code : option string) (response : option (Z * string))
    (service : string) : AppError :=
  if bool_decide (code = Some "ECONNREFUSED"%string
                  \/ code = Some "ENOTFOUND"%string)
  then new_AppError (service +:+ " service is currently unavailable.") 503
  else match response with
       | Some (responseStatus, statusText) =>
           if responseStatus >=? 400
           then new_AppError (service +:+ " service error: " +:+ statusText)
                             502
           else new_AppError (service +:+ " service error occurred.") 502
       | None => new_AppError (service +:+ " service error occurred.") 502
       end.

(** The JSON body of an error response in production; the time stamp is
    the instant read, present for the API only. *)
Record Response := mkResponse {
  responseStatus : Z;
  responseMessage : string;
  timestamp : option Z
}.

(** sendErrorProd, on the fields of the error it reads; the flag in the
    result tells whether the error was logged. *)
Definition sendErrorProd
    (err_statusCode : Z) (err_message : string) (err_isOperational : bool)
    (originalUrl : string) : IO (Response * bool) :=
  if String.prefix "/api" originalUrl
  then if err_isOperational
       then now ← new_Date;
            mret (mkResponse err_statusCode err_message (Some now), false)
       else now ← new_Date;
            mret (mkResponse 500 "Something went wrong!" (Some now), true)
  else if err_isOperational
       then mret (mkResponse err_statusCode err_message None, false)
       else mret (mkResponse 500 "Something went wrong!" None, true).

End ErrorHandler.

(** ** The front end: the reducer of the authentication context and the
    checks of the authentication service *)
Module Frontend.

Section Reducer.

(** The user object the API returns. *)
Variable User : Type.

Record AuthState := mkAuthState {
  user : option User;
  token : option string;
  isAuthenticated : bool;
  isLoading : bool;
  error : option string
}.

Inductive AuthAction :=
  | AUTH_START
  | AUTH_SUCCESS (payload_user : User) (payload_token : string)
  | AUTH_FAILURE (payload : string)
  | AUTH_LOGOUT
  | UPDATE_USER (payload : User)
  | CLEAR_ERROR.

(** initialState, with what [localStorage.getItem('token')] returns. *)
Definition initialState (stored_token : option string) : AuthState :=
  mkAuthState None stored_token false true None.

Definition authReducer (state : AuthState) (action : AuthAction)
  : AuthState :=
  match action with
  | AUTH_START =>
      mkAuthState (user state) (token state) (isAuthenticated state)
                  true None
  | AUTH_SUCCESS payload_user payload_token =>
      mkAuthState (Some payload_user) (Some payload_token) true false None
  | AUTH_FAILURE payload =>
      mkAuthState None None false false (Some payload)
  | AUTH_LOGOUT =>
      mkAuthState None None false false None
  | UPDATE_USER payload =>
      mkAuthState (Some payload) (token state) (isAuthenticated state)
                  (isLoading state) (error state)
  | CLEAR_ERROR =>
      mkAuthState (user state) (token state) (isAuthenticated state)
                  (isLoading state) None
  end.

(** The state after a sequence of dispatches. *)
Definition dispatch_all (state : AuthState) (actions : list AuthAction)
  : AuthState :=
  foldl authReducer state actions.

End Reducer.

Arguments mkAuthState {User}.
Arguments user {User}.
Arguments token {User}.
Arguments isAuthenticated {User}.
Arguments isLoading {User}.
Arguments error {User}.
Arguments AUTH_START {User}.
Arguments AUTH_SUCCESS {User}.
Arguments AUTH_FAILURE {User}.
Arguments AUTH_LOGOUT {User}.
Arguments UPDATE_USER {User}.
Arguments CLEAR_ERROR {User}.
Arguments initialState {User}.
Arguments authReducer {User}.
Arguments dispatch_all {User}.

(** authService.hasRole and authService.hasPermission, on the role and
    the permissions of the user object ([None]: no user). *)
Definition hasRole (user : option (string * list string))
    (roles : list string) : bool :=
  match user with
  | None => false
  | Some (role, _) => bool_decide (role ∈ roles)
  end.

Definition hasPermission (user : option (string * list string))
    (permission : string) : bool :=
  match user with
  | None => false
  | Some (role, permissions) =>
      bool_decide (permission ∈ permissions) || String.eqb role "admin"
  end.

(** The user object the API sends for a stored user. *)
Definition user_object (u : User.Doc) : string * list string :=
  (User.role_name (User.role u), User.permissions u).

End Frontend.

(** ** routes/auth.js: POST /api/auth/login *)
Module AuthRoutes.

(** What the route writes to the log. *)
Inductive LogEntry :=
  | Security (event : string)
  | Activity (action : string).

(** How the handler ends: with a thrown [AppError] or a rejected save,
    both passed to the error handler by [catchAsync], or with the JSON
    response of a successful login. *)
Inductive Result :=
  | Rejected (error : ErrorHandler.AppError)
  | Failed (error : JsError)
  | Sent (user : User.Doc) (token refreshToken : string).

(** The three refusals of the route. *)
Definition INVALID : Result :=
  Rejected (ErrorHandler.new_AppError "Invalid email or password" 401).

Definition LOCKED : Result :=
  Rejected (ErrorHandler.new_AppError
    "Account is temporarily locked due to multiple failed login attempts"
    423).

Definition DEACTIVATED : Result :=
  Rejected (ErrorHandler.new_AppError
    "Account is deactivated. Please contact administrator" 401).

Section Login.

(** [bcrypt.compare] and the oracles of the user's save. *)
Variable bcrypt_compare : string -> string -> bool.
Variable bcrypt_hash : option string -> Z -> JsError + string.
Variable BCRYPT_SALT_ROUNDS : option Z.

(** methods.comparePassword *)
Definition comparePassword (candidatePassword : string) (u : User.Doc)
  : bool :=
  match User.password u with
  | None => false
  | Some hashed =>
      if String.eqb hashed EmptyString then false
      else bcrypt_compare candidatePassword hashed
  end.

(** The handler of the route.  [validation_errors] are the messages
    [validationResult(req)] holds, [signed_token] and [signed_refresh]
    what [jwt.sign] returns for the two tokens, [userAgent] the request
    header, and [stored] the user [User.findByEmail(email)] finds.  The
    result comes with the log and with the stored user after the
    request: [incLoginAttempts] and [resetLoginAttempts] update the
    stored document only, and the final save writes what the handler
    changed on the loaded one. *)
Definition login
    (validation_errors : list string) (password : string)
    (signed_token signed_refresh : string) (userAgent : option string)
    (stored : option User.Doc)
  : IO (Result * list LogEntry * option User.Doc) :=
  match validation_errors with
  | _ :: _ =>
      mret (Rejected (ErrorHandler.handleValidationError validation_errors),
            [], stored)
  | [] =>
      match stored with
      | None =>
          mret (INVALID,
                [Security "Failed login attempt - user not found"], None)
      | Some user =>
          locked ← User.isLocked user;
          if locked : bool
          then mret (LOCKED,
                     [Security "Login attempt on locked account"],
                     Some user)
          else if negb (User.isActive user)
          then mret (DEACTIVATED,
                     [Security "Login attempt on inactive account"],
                     Some user)
          else if negb (comparePassword password user)
          then after ← User.incLoginAttempts user;
               mret (INVALID,
                     [Security "Failed login attempt - incorrect password"],
                     Some after)
          else
            let reset :=
              if User.attempts user >? 0 then User.resetLoginAttempts
              else id in
            issued ← User.generateRefreshToken signed_refresh userAgent user;
            lastLogin ← new_Date;
            lastActivity ← new_Date;
            saved ← User.save bcrypt_hash BCRYPT_SALT_ROUNDS
                      (User.set_lastActivity (Some lastActivity)
                         (User.set_lastLogin (Some lastLogin) issued.2));
            match saved.1 with
            | Completed =>
                mret (Sent (User.set_password None saved.2)
                           signed_token issued.1,
                      [Activity "USER_LOGIN"],
                      Some (reset saved.2))
            | Throws error =>
                mret (Failed error, [], Some (reset user))
            end
      end
  end.

(** Logins in a row with the given passwords, each on the user the
    previous one left in the store. *)
Fixpoint login_each
    (passwords : list string) (signed_token signed_refresh : string)
    (stored : option User.Doc)
  : IO (list Result * option User.Doc) :=
  match passwords with
  | [] => mret ([], stored)
  | password :: passwords' =>
      r ← login [] password signed_token signed_refresh None stored;
      rest ← login_each passwords' signed_token signed_refresh r.2;
      mret (r.1.1 :: rest.1, rest.2)
  end.

End Login.

End AuthRoutes.

(** ** Properties of the DCA model *)
Module DCAProps.
Import DCA Samples.

(** *** What a save does to a DCA *)

Lemma pre_save_compliance_frame d w :
  let d' := (pre_save_compliance d w).1 in
  capacity d' = capacity d /\ performance d' = performance d /\
  status d' = status d /\ contractStatus d' = contractStatus d /\
  flags d' = flags d.
Proof.
  unfold pre_save_compliance, hasValidLicenses.
  destruct (licensesModified d); [|done].
  destruct (licenses (licensing d));
    unfold mbind, IO_bind, mret, IO_ret; simpl; done.
Qed.

Lemma save_capacity d w :
  capacity (save d w).1 = capacity (pre_save_capacity d).
Proof. unfold save. apply pre_save_compliance_frame. Qed.

Lemma save_performance d w : performance (save d w).1 = performance d.
Proof.
  unfold save.
  destruct (pre_save_compliance_frame (pre_save_capacity d) w)
    as (_ & -> & _).
  unfold pre_save_capacity. by destruct (_ >? _).
Qed.

(** A load within the maximum passes the first hook untouched. *)
Lemma save_load_no_clamp d w :
  currentCaseLoad (capacity d) <= maxConcurrentCases (capacity d) ->
  capacity (save d w).1 = capacity d.
Proof.
  intros H. rewrite save_capacity. unfold pre_save_capacity.
  destruct (Z.gtb_spec (currentCaseLoad (capacity d))
                       (maxConcurrentCases (capacity d))); [lia|done].
Qed.

(** After any save the load is within the maximum. *)
Lemma save_load_le_max d w :
  currentCaseLoad (capacity (save d w).1)
  <= maxConcurrentCases (capacity (save d w).1).
Proof.
  rewrite save_capacity. unfold pre_save_capacity.
  destruct (Z.gtb_spec (currentCaseLoad (capacity d))
                       (maxConcurrentCases (capacity d))); simpl; lia.
Qed.

(** *** Reserving and releasing a slot *)

Lemma assignCase_thrown d w :
  availableCapacity d < 1 ->
  assignCase d w = (Throws No_available_capacity, d, w).
Proof.
  intros H. unfold assignCase.
  destruct (Z.gtb_spec (availableCapacity d) 0); [lia|done].
Qed.

Lemma assignCase_completed d w :
  1 <= availableCapacity d ->
  (assignCase d w).1.1 = Completed /\
  capacity (assignCase d w).1.2 =
    mkCapacity (maxConcurrentCases (capacity d))
               (currentCaseLoad (capacity d) + 1)
               (availableAgents (capacity d)).
Proof.
  intros H. unfold assignCase.
  destruct (Z.gtb_spec (availableCapacity d) 0) as [_|]; [|lia].
  set (d1 := set_currentCaseLoad (currentCaseLoad (capacity d) + 1) d).
  assert (Hfit : currentCaseLoad (capacity d1)
                 <= maxConcurrentCases (capacity d1)).
  { unfold availableCapacity in H. simpl. lia. }
  pose proof (save_load_no_clamp d1 w Hfit) as Hcap.
  unfold mbind, IO_bind, mret, IO_ret.
  destruct (save d1 w) as [d' w']. simpl in *. by rewrite Hcap.
Qed.

(** C3. Reserving a slot with [assignCase] throws the error
    "No available capacity" (the specification's CapacityExceeded)
    exactly when [availableCapacity] is below 1, and then the document,
    its load included, and the world are as before the call; otherwise
    the call completes, the load is one more than before, the maximum is
    unchanged, and a load that was between 0 and the maximum still is. *)
Theorem assignCase_reserve (d : Doc) (w : World) :
  ((assignCase d w).1.1 = Throws No_available_capacity
     <-> availableCapacity d < 1) /\
  ((assignCase d w).1.1 = Completed <-> 1 <= availableCapacity d) /\
  (availableCapacity d < 1 ->
     assignCase d w = (Throws No_available_capacity, d, w)) /\
  (1 <= availableCapacity d ->
     let d' := (assignCase d w).1.2 in
     currentCaseLoad (capacity d') = currentCaseLoad (capacity d) + 1 /\
     maxConcurrentCases (capacity d') = maxConcurrentCases (capacity d) /\
     (0 <= currentCaseLoad (capacity d) <= maxConcurrentCases (capacity d) ->
      0 <= currentCaseLoad (capacity d')
        <= maxConcurrentCases (capacity d'))).
Proof.
  destruct (Z.lt_ge_cases (availableCapacity d) 1) as [Hnone|Hsome].
  - rewrite (assignCase_thrown d w Hnone). simpl.
    repeat split; try done; lia.
  - destruct (assignCase_completed d w Hsome) as [Hout Hcap].
    cbv zeta. rewrite Hout, Hcap. simpl. unfold availableCapacity in *.
    repeat split; try done; lia.
Qed.

Lemma assignCase_reserve_witness :
  assignCase full_dca world0 = (Throws No_available_capacity, full_dca, world0)
  /\ currentCaseLoad (capacity (assignCase idle_dca world0).1.2) = 1.
Proof.
  destruct (assignCase_reserve full_dca world0) as (_ & _ & Hfull & _).
  destruct (assignCase_reserve idle_dca world0) as (_ & _ & _ & Hidle).
  split.
  - apply Hfull. vm_compute. reflexivity.
  - apply Hidle. vm_compute. discriminate.
Defined.

(** C4. On a DCA that passes the schema's validators (maximum at least
    1, load at least 0) and has [availableCapacity] at least 1,
    [assignCase] followed by [releaseCase] completes and gives back the
    load and the available capacity of before the reservation; and
    [releaseCase] on a load of 0 leaves it at 0, the load after a
    release never being negative. *)
Theorem assign_release_round_trip (d : Doc) (w : World) :
  capacity_valid d ->
  (1 <= availableCapacity d ->
     let reserved := assignCase d w in
     let released := releaseCase reserved.1.2 reserved.2 in
     reserved.1.1 = Completed /\
     currentCaseLoad (capacity released.1) = currentCaseLoad (capacity d) /\
     availableCapacity released.1 = availableCapacity d) /\
  (currentCaseLoad (capacity d) = 0 ->
     currentCaseLoad (capacity (releaseCase d w).1) = 0) /\
  0 <= currentCaseLoad (capacity (releaseCase d w).1).
Proof.
  intros [Hmax Hload]. split; [|split].
  - intros Havail. cbv zeta.
    destruct (assignCase_completed d w Havail) as [Hout Hcap].
    destruct (assignCase d w) as [[o d1] w1]. simpl in *.
    split; [done|].
    unfold releaseCase. rewrite Hcap. simpl.
    destruct (Z.gtb_spec (currentCaseLoad (capacity d) + 1) 0); [|lia].
    unfold availableCapacity in *.
    rewrite save_load_no_clamp by (simpl; rewrite ?Hcap; simpl; lia).
    simpl. rewrite ?Hcap. simpl. split; [lia|]. f_equal. lia.
  - intros Hz. unfold releaseCase. rewrite Hz. simpl.
    rewrite save_load_no_clamp by lia. done.
  - unfold releaseCase.
    destruct (Z.gtb_spec (currentCaseLoad (capacity d)) 0);
      rewrite save_capacity; unfold pre_save_capacity; simpl;
      destruct (_ >? _) eqn:E; simpl; lia.
Qed.

Lemma assign_release_round_trip_witness :
  capacity_valid idle_dca /\
  1 <= availableCapacity idle_dca /\
  currentCaseLoad
    (capacity (releaseCase (assignCase idle_dca world0).1.2
                           (assignCase idle_dca world0).2).1) = 0 /\
  currentCaseLoad (capacity (releaseCase idle_dca world0).1) = 0.
Proof.
  assert (Hv : capacity_valid idle_dca) by (split; vm_compute; discriminate).
  assert (Ha : 1 <= availableCapacity idle_dca) by (vm_compute; discriminate).
  destruct (assign_release_round_trip idle_dca world0 Hv)
    as (Hround & Hfloor & _).
  split; [exact Hv|]. split; [exact Ha|]. split.
  - apply (Hround Ha).
  - apply Hfloor. reflexivity.
Defined.

(** The validators are needed: from a negative load the round trip does
    not come back. *)
Example round_trip_from_negative_load :
  let d := dca_with 5 (-1) in
  currentCaseLoad
    (capacity (releaseCase (assignCase d world0).1.2
                           (assignCase d world0).2).1) = 0.
Proof. reflexivity. Qed.

(** *** Availability *)

(** C5, as the code has it. [isAvailable n] answers true exactly when
    the status and the contract status are ACTIVE, the DCA is not
    blacklisted and [availableCapacity] is at least [n], where
    [availableCapacity] is max(0, maxConcurrentCases - currentCaseLoad):
    never negative, and equal to the difference whenever the load is
    within the maximum.  For [n >= 1] the test on [availableCapacity] is
    the same as the test on the difference; a call without argument
    asks for 1. *)
Theorem isAvailable_iff (d : Doc) (n : Z) :
  (isAvailable (Some n) d = true <->
     status d = ACTIVE /\ contractStatus d = ContractStatus.ACTIVE /\
     isBlacklisted (flags d) = false /\ n <= availableCapacity d) /\
  availableCapacity d =
    Z.max 0 (maxConcurrentCases (capacity d) - currentCaseLoad (capacity d)) /\
  0 <= availableCapacity d /\
  (currentCaseLoad (capacity d) <= maxConcurrentCases (capacity d) ->
     availableCapacity d =
       maxConcurrentCases (capacity d) - currentCaseLoad (capacity d)) /\
  (1 <= n ->
     (isAvailable (Some n) d = true <->
        status d = ACTIVE /\ contractStatus d = ContractStatus.ACTIVE /\
        isBlacklisted (flags d) = false /\
        n <= maxConcurrentCases (capacity d) - currentCaseLoad (capacity d))) /\
  isAvailable None d = isAvailable (Some 1) d.
Proof.
  assert (Hiff : isAvailable (Some n) d = true <->
     status d = ACTIVE /\ contractStatus d = ContractStatus.ACTIVE /\
     isBlacklisted (flags d) = false /\ n <= availableCapacity d).
  { unfold isAvailable. simpl.
    rewrite !andb_true_iff, !bool_decide_eq_true, negb_true_iff, Z.geb_le.
    tauto. }
  split; [exact Hiff|].
  split; [done|].
  split; [unfold availableCapacity; lia|].
  split; [unfold availableCapacity; lia|].
  split; [|done].
  intros Hn. rewrite Hiff. unfold availableCapacity.
  split; intros (?&?&?&?); repeat split; try done; lia.
Qed.

Lemma isAvailable_iff_witness :
  availableCapacity idle_dca = 5 /\ isAvailable (Some 5) idle_dca = true.
Proof.
  destruct (isAvailable_iff idle_dca 5) as (Hiff & _ & _ & Hdiff & _).
  split.
  - apply Hdiff. vm_compute. discriminate.
  - apply Hiff. repeat split. vm_compute. discriminate.
Defined.

(** C5 as stated fails on a DCA loaded beyond its maximum: the available
    capacity is 0, the difference is -2. *)
Lemma availableCapacity_overloaded_counterexample :
  capacity_valid overloaded_dca /\
  availableCapacity overloaded_dca = 0 /\
  maxConcurrentCases (capacity overloaded_dca)
    - currentCaseLoad (capacity overloaded_dca) = -2 /\
  availableCapacity overloaded_dca <>
    maxConcurrentCases (capacity overloaded_dca)
      - currentCaseLoad (capacity overloaded_dca).
Proof. repeat split; vm_compute; discriminate. Qed.

(** *** The window of monthly metrics *)

Lemma slice_last {A} (k : nat) (l : list A) :
  (0 < k)%nat -> slice (- Z.of_nat k) l = drop (length l - k) l.
Proof.
  intros Hk. unfold slice.
  destruct (Z.ltb_spec (- Z.of_nat k) 0); [|lia]. f_equal. lia.
Qed.

(** C8. [addMonthlyMetrics] leaves in [performance.monthlyMetrics] the
    last 24 entries of the old sequence followed by the new entry: the
    new entry is the last one, the length is min(24, old length + 1) and
    so never above 24, what remains is a suffix of the extended sequence
    (the oldest entries are the ones dropped, the order of the others is
    kept), and below 24 old entries nothing is dropped. *)
Theorem addMonthlyMetrics_window
    (monthlyData : MonthlyMetric) (d : Doc) (w : World) :
  let before := monthlyMetrics (performance d) in
  let after :=
    monthlyMetrics (performance (addMonthlyMetrics monthlyData d w).1) in
  after = drop (length (before ++ [monthlyData]) - 24)
               (before ++ [monthlyData]) /\
  last after = Some monthlyData /\
  length after = (24 `min` (length before + 1))%nat /\
  (length after <= 24)%nat /\
  after `suffix_of` before ++ [monthlyData] /\
  after `sublist_of` before ++ [monthlyData] /\
  ((length before < 24)%nat -> after = before ++ [monthlyData]) /\
  ((24 <= length before)%nat ->
     after = drop (length before - 23) before ++ [monthlyData]).
Proof.
  cbv zeta. unfold addMonthlyMetrics. rewrite save_performance.
  unfold set_monthlyMetrics. cbn [performance monthlyMetrics].
  set (before := monthlyMetrics (performance d)).
  set (pushed := before ++ [monthlyData]).
  assert (Hlen : length pushed = S (length before)).
  { unfold pushed. rewrite length_app. simpl. lia. }
  assert (Hkept :
    (if (24 <? length pushed)%nat then slice (-24) pushed else pushed)
    = drop (length pushed - 24) pushed).
  { destruct (Nat.ltb_spec 24 (length pushed)) as [Hgt|Hle].
    - apply (slice_last 24). lia.
    - replace (length pushed - 24)%nat with 0%nat by lia. done. }
  rewrite Hkept.
  assert (Hdrop : drop (length pushed - 24) pushed
                  = drop (length pushed - 24) before ++ [monthlyData]).
  { unfold pushed at 2. apply drop_app_le. lia. }
  split; [done|].
  split; [rewrite Hdrop; apply last_snoc|].
  split; [rewrite length_drop; lia|].
  split; [rewrite length_drop; lia|].
  split; [apply suffix_drop|].
  split; [apply sublist_drop|].
  split.
  - intros Hlt. replace (length pushed - 24)%nat with 0%nat by lia. done.
  - intros Hge. rewrite Hdrop. do 2 f_equal. lia.
Qed.

Lemma addMonthlyMetrics_window_witness :
  length (monthlyMetrics (performance seasoned_dca)) = 24%nat /\
  monthlyMetrics
    (performance (addMonthlyMetrics (metrics_of_month 25) seasoned_dca world0).1)
  = map metrics_of_month (seqZ 2 24).
Proof.
  split; [reflexivity|].
  destruct (addMonthlyMetrics_window (metrics_of_month 25) seasoned_dca world0)
    as (_ & _ & _ & _ & _ & _ & _ & Hevict).
  rewrite Hevict; [reflexivity|]. vm_compute. lia.
Defined.

End DCAProps.

(** ** Properties of the Case model *)
Module CaseProps.
Import Case Samples.

(** *** What a save does to a case *)

Ltac run_hooks :=
  unfold save, pre_save_caseNumber, pre_save_aging, overdueDays,
    pre_save_currentAmount, new_Date, Date_getFullYear, countDocuments_in,
    mbind, IO_bind, mret, IO_ret.

Ltac by_hook_cases c :=
  let Hd := fresh "Hd" in
  let Hp := fresh "Hp" in
  destruct (needsCaseNumber c), (dueDate (debt c)) eqn:Hd,
           (payments c) eqn:Hp;
  simpl; rewrite ?Hd, ?Hp; simpl; rewrite ?Hd, ?Hp; simpl.

Lemma save_frame c w : same_raw_fields c (save c w).1.
Proof.
  run_hooks. unfold same_raw_fields.
  by_hook_cases c; repeat split; done.
Qed.

Lemma save_untouched c0 c w :
  same_untouched_fields c0 c -> same_untouched_fields c0 (save c w).1.
Proof.
  unfold same_untouched_fields.
  destruct (save_frame c w) as (->&->&->&->&_&->&->&->&->&->&_&->&_&->).
  done.
Qed.

Lemma save_totalPaid c w : totalPaid (save c w).1 = totalPaid c.
Proof.
  unfold totalPaid.
  destruct (save_frame c w) as (_&_&_&_&_&_&_&_&_&_&_&->&_). done.
Qed.

Lemma save_currentAmount c w :
  currentAmount (debt (save c w).1) =
    match payments c with
    | [] => currentAmount (debt c)
    | _ :: _ => Qmax 0 (originalAmount (debt c) - totalPaid c)
    end.
Proof.
  run_hooks.
  by_hook_cases c; try done; unfold totalPaid; simpl; rewrite ?Hp; done.
Qed.

Lemma save_aging c w :
  aging (save c w).1 =
    match dueDate (debt c) with
    | None => aging c
    | Some due =>
        let now := upcoming w (if needsCaseNumber c then 1 else 0) in
        let d := if due >? now then 0 else (now - due) / MS_PER_DAY in
        mkAging d (category_of d)
    end.
Proof.
  run_hooks. unfold upcoming.
  by_hook_cases c; rewrite ?Nat.add_0_r, ?Nat.add_1_r; done.
Qed.

Lemma save_amount_invariant c w :
  payments c <> [] -> amount_invariant (save c w).1.
Proof.
  intros Hp. unfold amount_invariant.
  rewrite save_currentAmount, save_totalPaid.
  destruct (save_frame c w) as (_&->&_).
  destruct (payments c); done.
Qed.

(** *** The current amount *)

(** C1, as the code has it. After a save of a case with at least one
    payment, [debt.currentAmount] is max(0, originalAmount minus the sum
    of the COMPLETED payments); this holds after every [addPayment].  A
    case without payments keeps the current amount it had. *)
Theorem save_currentAmount_payments (c : Doc) (w : World) :
  (payments c <> [] -> amount_invariant (save c w).1) /\
  (payments c = [] ->
     currentAmount (debt (save c w).1) = currentAmount (debt c)) /\
  (forall payment, amount_invariant (addPayment payment c w).1).
Proof.
  split; [apply save_amount_invariant|]. split.
  - intros Hp. rewrite save_currentAmount, Hp. done.
  - intros payment. unfold addPayment. apply save_amount_invariant.
    simpl. by destruct (payments c).
Qed.

Lemma save_currentAmount_payments_witness :
  amount_invariant (save paid_case world0).1 /\
  currentAmount (debt (save paid_case world0).1) == 600 /\
  currentAmount (debt (save fresh_case world0).1) == 1000.
Proof.
  destruct (save_currentAmount_payments paid_case world0) as (Hpaid & _).
  destruct (save_currentAmount_payments fresh_case world0) as (_ & Hnone & _).
  split; [apply Hpaid; discriminate|].
  split; [reflexivity|].
  rewrite Hnone; reflexivity.
Defined.

(** C1 as stated fails on a case without payments: the save leaves the
    current amount at 500 where the formula gives 1000. *)
Lemma save_currentAmount_unpaid_counterexample :
  payments partial_case = [] /\
  currentAmount (debt (save partial_case world0).1) == 500 /\
  Qmax 0 (originalAmount (debt (save partial_case world0).1)
          - totalPaid (save partial_case world0).1) == 1000 /\
  ~ currentAmount (debt (save partial_case world0).1)
    == Qmax 0 (originalAmount (debt (save partial_case world0).1)
               - totalPaid (save partial_case world0).1).
Proof. repeat split; vm_compute; discriminate. Qed.

(** *** Aging *)

Lemma category_of_table d :
  (category_of d = FRESH <-> d <= 0) /\
  (category_of d = LOW <-> 1 <= d <= 30) /\
  (category_of d = MEDIUM <-> 31 <= d <= 60) /\
  (category_of d = HIGH <-> 61 <= d <= 90) /\
  (category_of d = CRITICAL <-> 90 < d).
Proof.
  unfold category_of.
  destruct (Z.leb_spec d 0); [repeat split; (done || lia)|].
  destruct (Z.leb_spec d 30); [repeat split; (done || lia)|].
  destruct (Z.leb_spec d 60); [repeat split; (done || lia)|].
  destruct (Z.leb_spec d 90); repeat split; (done || lia).
Qed.

(** C6. After a save of a case with a due date, where [now] is the
    instant the aging hook reads, [aging.days] is max(0, whole days from
    the due date to [now]) (rounding down or towards zero alike), and
    [aging.category] is FRESH for at most 0 days, LOW for 1 to 30,
    MEDIUM for 31 to 60, HIGH for 61 to 90 and CRITICAL above 90; so 30
    days give LOW, 31 MEDIUM, 90 HIGH and 91 CRITICAL. *)
Theorem save_aging_thresholds (c : Doc) (w : World) (due : Z) :
  dueDate (debt c) = Some due ->
  let c' := (save c w).1 in
  let now := upcoming w (if needsCaseNumber c then 1 else 0) in
  let d := days (aging c') in
  d = Z.max 0 ((now - due) / MS_PER_DAY) /\
  d = Z.max 0 ((now - due) ÷ MS_PER_DAY) /\
  (category (aging c') = FRESH <-> d <= 0) /\
  (category (aging c') = LOW <-> 1 <= d <= 30) /\
  (category (aging c') = MEDIUM <-> 31 <= d <= 60) /\
  (category (aging c') = HIGH <-> 61 <= d <= 90) /\
  (category (aging c') = CRITICAL <-> 90 < d) /\
  (d = 30 -> category (aging c') = LOW) /\
  (d = 31 -> category (aging c') = MEDIUM) /\
  (d = 90 -> category (aging c') = HIGH) /\
  (d = 91 -> category (aging c') = CRITICAL).
Proof.
  intros Hdue. cbv zeta. rewrite save_aging, Hdue. cbv zeta.
  set (now := upcoming w _).
  set (d := if due >? now then 0 else (now - due) / MS_PER_DAY).
  cbn [days category].
  assert (Hday : 0 < MS_PER_DAY) by done.
  assert (Hd : d = Z.max 0 ((now - due) / MS_PER_DAY)).
  { unfold d. destruct (Z.gtb_spec due now).
    - assert ((now - due) / MS_PER_DAY < 0)
        by (apply Z.div_lt_upper_bound; lia).
      lia.
    - assert (0 <= (now - due) / MS_PER_DAY) by (apply Z.div_pos; lia).
      lia. }
  assert (Hq : d = Z.max 0 ((now - due) ÷ MS_PER_DAY)).
  { unfold d. destruct (Z.gtb_spec due now).
    - assert ((now - due) ÷ MS_PER_DAY <= 0)
        by (apply Z.quot_le_upper_bound; lia).
      lia.
    - rewrite Z.quot_div_nonneg by lia.
      assert (0 <= (now - due) / MS_PER_DAY) by (apply Z.div_pos; lia).
      lia. }
  destruct (category_of_table d) as (Hf & Hl & Hm & Hh & Hc).
  repeat split; try tauto; try lia.
  all: intros; (apply Hl || apply Hm || apply Hh || apply Hc); lia.
Qed.

Lemma save_aging_thresholds_witness :
  dueDate (debt stale_case) = Some (1700000000000 - 40 * MS_PER_DAY) /\
  days (aging (save stale_case world0).1) = 40 /\
  category (aging (save stale_case world0).1) = MEDIUM.
Proof.
  assert (Hdue : dueDate (debt stale_case)
                 = Some (1700000000000 - 40 * MS_PER_DAY)) by reflexivity.
  destruct (save_aging_thresholds stale_case world0 _ Hdue)
    as (Hdays & _ & _ & _ & Hmedium & _).
  split; [exact Hdue|]. split.
  - rewrite Hdays. reflexivity.
  - apply Hmedium. vm_compute. split; discriminate.
Defined.

(** *** Recovery rate and remaining balance *)

Lemma totalPaid_single c payment :
  payments c = [payment] ->
  paymentStatus payment = PaymentStatus.COMPLETED ->
  totalPaid c = (0 + amount payment)%Q.
Proof.
  intros Hp Hs. unfold totalPaid. rewrite Hp.
  rewrite filter_cons_True by done. done.
Qed.

(** C7. [recoveryRate] is 0 when [debt.originalAmount] is 0 and
    otherwise totalPaid / originalAmount * 100; a case of original
    amount 1000 whose only payment, of 400 and COMPLETED, is recorded
    with [addPayment] has current amount 600 and recovery rate 40. *)
Theorem recoveryRate_formula (c : Doc) :
  (originalAmount (debt c) == 0 -> recoveryRate c = 0%Q) /\
  (~ originalAmount (debt c) == 0 ->
     recoveryRate c = (totalPaid c / originalAmount (debt c) * 100)%Q) /\
  (forall (payment : Payment) (w : World),
     payments c = [] ->
     originalAmount (debt c) == 1000 ->
     amount payment == 400 ->
     paymentStatus payment = PaymentStatus.COMPLETED ->
     let c' := (addPayment payment c w).1 in
     currentAmount (debt c') == 600 /\ recoveryRate c' == 40).
Proof.
  unfold recoveryRate. split; [|split].
  - intros H0. apply Qeq_bool_iff in H0. by rewrite H0.
  - intros H0. destruct (Qeq_bool _ _) eqn:E; [|done].
    apply Qeq_bool_iff in E. done.
  - intros payment w Hnone Horig Hamt Hst. cbv zeta. unfold addPayment.
    set (c1 := set_payments (payments c ++ [payment]) c).
    assert (Hp1 : payments c1 = [payment]) by (simpl; by rewrite Hnone).
    assert (Ho1 : originalAmount (debt c1) = originalAmount (debt c))
      by done.
    rewrite save_currentAmount, save_totalPaid, Hp1.
    destruct (save_frame c1 w) as (_&->&_). rewrite Ho1.
    rewrite (totalPaid_single c1 payment Hp1 Hst).
    assert (Hnz : Qeq_bool (originalAmount (debt c)) 0 = false).
    { destruct (Qeq_bool _ _) eqn:E; [|done].
      apply Qeq_bool_iff in E. rewrite Horig in E. done. }
    rewrite Hnz. split; rewrite Horig, Hamt; done.
Qed.

Lemma recoveryRate_formula_witness :
  currentAmount (debt (addPayment payment400 fresh_case world0).1) == 600 /\
  recoveryRate (addPayment payment400 fresh_case world0).1 == 40 /\
  recoveryRate (case_with 0 0 None NEW fresh_aging []) = 0%Q.
Proof.
  destruct (recoveryRate_formula fresh_case) as (_ & _ & Hscenario).
  destruct (recoveryRate_formula (case_with 0 0 None NEW fresh_aging []))
    as (Hzero & _).
  split; [|split].
  - apply (Hscenario payment400 world0); reflexivity.
  - apply (Hscenario payment400 world0); reflexivity.
  - apply Hzero. reflexivity.
Defined.

(** C9. [remainingBalance] is max(0, currentAmount - totalPaid), with
    totalPaid the sum of the COMPLETED payments; after a save of a case
    with at least one payment it is therefore
    max(0, max(0, originalAmount - totalPaid) - totalPaid), which, when
    the payments do not exceed the original amount, is
    max(0, originalAmount - 2 * totalPaid): the completed payments are
    subtracted twice. *)
Theorem remainingBalance_after_save (c : Doc) :
  remainingBalance c = Qmax 0 (currentAmount (debt c) - totalPaid c) /\
  (forall w : World,
     payments c <> [] ->
     let c' := (save c w).1 in
     remainingBalance c' =
       Qmax 0 (Qmax 0 (originalAmount (debt c') - totalPaid c')
               - totalPaid c')
     /\ ((totalPaid c' <= originalAmount (debt c'))%Q ->
         remainingBalance c' ==
           Qmax 0 (originalAmount (debt c') - 2 * totalPaid c'))).
Proof.
  split; [done|]. intros w Hp. cbv zeta.
  assert (Heq : remainingBalance (save c w).1 =
    Qmax 0 (Qmax 0 (originalAmount (debt (save c w).1)
                    - totalPaid (save c w).1)
            - totalPaid (save c w).1)).
  { unfold remainingBalance. rewrite save_currentAmount, save_totalPaid.
    destruct (save_frame c w) as (_&->&_). destruct (payments c); done. }
  split; [exact Heq|].
  intros Hle. rewrite Heq.
  rewrite (Q.max_r 0 (originalAmount _ - totalPaid _)).
  - apply Q.max_compat; [done|]. ring.
  - by apply (proj1 (Qle_minus_iff _ _)).
Qed.

Lemma remainingBalance_after_save_witness :
  payments paid_case <> [] /\
  currentAmount (debt (save paid_case world0).1) == 600 /\
  remainingBalance (save paid_case world0).1 == 200.
Proof.
  assert (Hp : payments paid_case <> []) by discriminate.
  destruct (remainingBalance_after_save paid_case) as (_ & Hsaved).
  destruct (Hsaved world0 Hp) as (_ & Htwice).
  split; [exact Hp|]. split; [reflexivity|].
  rewrite Htwice; [reflexivity|]. vm_compute. discriminate.
Defined.

(** *** Escalation *)

(** C2, as the code has it. [escalate] has no guard on the status: on
    every case, a CLOSED one included, it completes, appends the
    escalation record, sets the status to ESCALATED and
    [dates.escalationDate] to the instant of the call; the contact
    dates, the communications and the fields no hook recomputes are as
    before.  Nor does a save guard the status: a case saved after its
    status was assigned, from any status to any other, has the assigned
    status. *)
Theorem escalate_effect (escalation : Escalation) (c : Doc) (w : World) :
  let c' := (escalate escalation c w).1 in
  status c' = ESCALATED /\
  escalations c' = escalations c ++ [escalation] /\
  escalationDate (dates c') = Some (upcoming w 0) /\
  firstContact (dates c') = firstContact (dates c) /\
  lastContact (dates c') = lastContact (dates c) /\
  communications c' = communications c /\
  same_untouched_fields c c' /\
  (forall target : Status, status (save (set_status target c) w).1 = target).
Proof.
  cbv zeta. split; [|split; [|split; [|split; [|split; [|split; [|split]]]]]].
  8: { intros target.
       destruct (save_frame (set_status target c) w) as (_&_&_&_&->&_).
       done. }
  all: unfold escalate, upcoming, new_Date, mbind, IO_bind.
  all: rewrite ?Nat.add_0_r.
  all: match goal with |- context [save ?c1 ?w1] =>
         pose proof (save_untouched c c1 w1) as Hun;
         destruct (save_frame c1 w1) as (_&_&_&_&Hst&_&_&_&_&Hd&Hc&_&He&_)
       end.
  all: rewrite ?Hst, ?Hd, ?Hc, ?He; try done.
  by apply Hun.
Qed.

(** C2 as stated fails: escalating a CLOSED case is not rejected, it
    moves the case to ESCALATED and records the escalation. *)
Lemma escalate_closed_counterexample :
  status closed_case = CLOSED /\
  escalations closed_case = [] /\
  status (escalate sla_breach closed_case world0).1 = ESCALATED /\
  escalations (escalate sla_breach closed_case world0).1 = [sla_breach] /\
  escalationDate (dates (escalate sla_breach closed_case world0).1)
    = Some 1700000000000.
Proof. repeat split; vm_compute; reflexivity. Qed.

(** *** Communications *)

Lemma addCommunication_firstContact communication c w :
  firstContact (dates (addCommunication communication c w).1) =
    match firstContact (dates c) with
    | Some f => Some f
    | None => Some (upcoming w 1)
    end.
Proof.
  unfold addCommunication, upcoming, new_Date, mbind, IO_bind, mret, IO_ret.
  cbn [firstContact dates set_lastContact set_dates set_communications].
  destruct (firstContact (dates c)) eqn:Hf; cbn [reads clock];
    match goal with |- context [save ?c1 ?w1] =>
      destruct (save_frame c1 w1) as (_&_&_&_&_&_&_&_&_&->&_) end;
    simpl; rewrite ?Nat.add_1_r; done.
Qed.

Lemma addCommunication_each_firstContact later : forall c w f,
  firstContact (dates c) = Some f ->
  firstContact (dates (addCommunication_each later c w).1) = Some f.
Proof.
  induction later as [|communication later IH]; intros c w f Hf; [done|].
  cbn [addCommunication_each]. unfold mbind, IO_bind.
  pose proof (addCommunication_firstContact communication c w) as H1.
  rewrite Hf in H1.
  destruct (addCommunication communication c w) as [c1 w1].
  by apply IH.
Qed.

(** C10, as the code has it. [addCommunication] appends the
    communication, sets [dates.lastContact] to the instant of the call,
    and sets [dates.firstContact] (to the next instant read) only when
    it was unset: a first contact that has a value keeps it through this
    call and through any later calls.  The call does not assign the
    escalation date, the status, the escalations or the fields no hook
    recomputes; the save that ends it may still recompute [caseNumber],
    [aging] and [debt.currentAmount]. *)
Theorem addCommunication_effect
    (communication : Communication) (c : Doc) (w : World) :
  let c' := (addCommunication communication c w).1 in
  communications c' = communications c ++ [communication] /\
  lastContact (dates c') = Some (upcoming w 0) /\
  firstContact (dates c') =
    match firstContact (dates c) with
    | Some f => Some f
    | None => Some (upcoming w 1)
    end /\
  (forall f later w',
     firstContact (dates c) = Some f ->
     firstContact (dates c') = Some f /\
     firstContact (dates (addCommunication_each later c' w').1) = Some f) /\
  escalationDate (dates c') = escalationDate (dates c) /\
  status c' = status c /\
  escalations c' = escalations c /\
  same_untouched_fields c c'.
Proof.
  cbv zeta.
  pose proof (addCommunication_firstContact communication c w) as Hfirst.
  split; [|split; [|split; [exact Hfirst|split]]].
  3: { intros f later w' Hf. rewrite Hf in Hfirst. split; [done|].
       by apply addCommunication_each_firstContact. }
  all: clear Hfirst.
  all: unfold addCommunication, upcoming, new_Date, mbind, IO_bind,
         mret, IO_ret.
  all: rewrite ?Nat.add_0_r.
  all: destruct (firstContact (dates _)) eqn:Hf.
  all: match goal with |- context [save ?c1 ?w1] =>
         pose proof (save_untouched c c1 w1) as Hun;
         destruct (save_frame c1 w1)
           as (_&_&_&_&Hst&_&_&_&_&Hd&Hc&_&He&_) end.
  all: rewrite ?Hst, ?Hd, ?Hc, ?He; try done.
  all: repeat split; try done; by apply Hun.
Qed.

Lemma addCommunication_effect_witness :
  firstContact (dates contacted_case) = Some 1690000000000 /\
  firstContact (dates (addCommunication reminder contacted_case world0).1)
    = Some 1690000000000 /\
  firstContact
    (dates (addCommunication_each [reminder; reminder]
              (addCommunication reminder contacted_case world0).1
              world0).1)
    = Some 1690000000000.
Proof.
  destruct (addCommunication_effect reminder contacted_case world0)
    as (_ & _ & _ & Hkept & _).
  split; [reflexivity|].
  apply (Hkept 1690000000000 [reminder; reminder] world0).
  reflexivity.
Defined.

(** C10 as stated fails: the save inside [addCommunication] recomputes
    the aging of a case whose due date is forty days old. *)
Lemma addCommunication_aging_counterexample :
  aging stale_case = mkAging 0 FRESH /\
  aging (addCommunication reminder stale_case world0).1
    = mkAging 40 MEDIUM.
Proof. split; vm_compute; reflexivity. Qed.

End CaseProps.

(** ** Further properties of the DCA model *)
Module DCAMoreProps.
Import DCA DCAMore Samples.

(** *** The load stays within its bounds *)

Lemma perform_capacity call d w :
  load_in_bounds d ->
  load_in_bounds (perform call d w).1 /\
  maxConcurrentCases (capacity (perform call d w).1)
    = maxConcurrentCases (capacity d) /\
  Z.abs (currentCaseLoad (capacity (perform call d w).1)
         - currentCaseLoad (capacity d)) <= 1.
Proof.
  unfold load_in_bounds. intros Hb. destruct call as [| |monthlyData].
  - unfold perform, mbind, IO_bind, mret, IO_ret.
    destruct (Z.lt_ge_cases (availableCapacity d) 1) as [Hnone|Hsome].
    + rewrite (DCAProps.assignCase_thrown d w Hnone). simpl. lia.
    + destruct (DCAProps.assignCase_completed d w Hsome) as [_ Hcap].
      destruct (assignCase d w) as [[o d1] w1]. simpl in *.
      rewrite Hcap. simpl. unfold availableCapacity in Hsome. lia.
  - unfold perform, releaseCase.
    destruct (Z.gtb_spec (currentCaseLoad (capacity d)) 0).
    + rewrite DCAProps.save_load_no_clamp by (simpl; lia). simpl. lia.
    + rewrite DCAProps.save_load_no_clamp by lia. lia.
  - unfold perform, addMonthlyMetrics.
    rewrite DCAProps.save_load_no_clamp by (simpl; lia). simpl. lia.
Qed.

(** X1. Whatever sequence of [assignCase] (refused or not),
    [releaseCase] and [addMonthlyMetrics] calls is made on a DCA whose
    load is between 0 and its maximum, the load is still between 0 and the
    maximum afterwards and the maximum is the one of the start. *)
Theorem perform_all_load_in_bounds (calls : list Call) (d : Doc) (w : World) :
  load_in_bounds d ->
  load_in_bounds (perform_all calls d w).1 /\
  maxConcurrentCases (capacity (perform_all calls d w).1)
    = maxConcurrentCases (capacity d).
Proof.
  revert d w. induction calls as [|call calls IH]; intros d w Hb; [done|].
  cbn [perform_all]. unfold mbind, IO_bind.
  destruct (perform_capacity call d w Hb) as (Hb1 & Hmax1 & _).
  destruct (perform call d w) as [d1 w1]. simpl in *.
  destruct (IH d1 w1 Hb1) as [Hb2 Hmax2].
  split; [done|]. by rewrite Hmax2.
Qed.

Lemma perform_all_load_in_bounds_witness :
  load_in_bounds full_dca /\
  load_in_bounds
    (perform_all [AssignCase; ReleaseCase; ReleaseCase; AssignCase]
                 full_dca world0).1.
Proof.
  assert (Hb : load_in_bounds full_dca) by (split; vm_compute; discriminate).
  split; [exact Hb|].
  apply (perform_all_load_in_bounds
           [AssignCase; ReleaseCase; ReleaseCase; AssignCase]
           full_dca world0 Hb).
Defined.

(** *** Exactly the free slots can be reserved *)

Lemma assignCase_times_refused n : forall d w,
  availableCapacity d < 1 ->
  (assignCase_times n d w).1 = (replicate n (Throws No_available_capacity), d).
Proof.
  induction n as [|n IH]; intros d w Hnone; [done|].
  cbn [assignCase_times]. unfold mbind, IO_bind, mret, IO_ret.
  rewrite (DCAProps.assignCase_thrown d w Hnone). simpl.
  specialize (IH d w Hnone).
  destruct (assignCase_times n d w) as [[os d'] w']. simpl in *.
  by inversion IH.
Qed.

(** X2. Of [n] reservations in a row on a DCA, the first
    min(n, availableCapacity) complete and every later one throws
    "No available capacity"; the load ends that many above where it
    started, and the maximum is unchanged. *)
Theorem assignCase_times_outcomes (n : nat) (d : Doc) (w : World) :
  let free := Z.to_nat (availableCapacity d) in
  let result := (assignCase_times n d w).1 in
  result.1 = replicate (n `min` free) Completed
             ++ replicate (n - free) (Throws No_available_capacity) /\
  currentCaseLoad (capacity result.2)
    = currentCaseLoad (capacity d) + Z.of_nat (n `min` free) /\
  maxConcurrentCases (capacity result.2) = maxConcurrentCases (capacity d).
Proof.
  cbv zeta. revert d w. induction n as [|n IH]; intros d w.
  - simpl. split; [done|]. split; [lia|done].
  - destruct (Z.lt_ge_cases (availableCapacity d) 1) as [Hnone|Hsome].
    + rewrite (assignCase_times_refused (S n) d w Hnone).
      replace (Z.to_nat (availableCapacity d)) with 0%nat by lia.
      rewrite Nat.min_0_r, Nat.sub_0_r. simpl. split; [done|]. split; [lia|done].
    + cbn [assignCase_times]. unfold mbind, IO_bind, mret, IO_ret.
      destruct (DCAProps.assignCase_completed d w Hsome) as [Hout Hcap].
      destruct (assignCase d w) as [[o d1] w1]. cbn [fst snd] in *. subst o.
      assert (Hfree : Z.to_nat (availableCapacity d)
                      = S (Z.to_nat (availableCapacity d1))).
      { unfold availableCapacity in *. rewrite Hcap. simpl. lia. }
      pose proof (IH d1 w1) as (Hos & Hload & Hmax).
      destruct (assignCase_times n d1 w1) as [[os d2] w2].
      cbn [fst snd] in *.
      rewrite Hfree, Hos, Hload, Hmax, Hcap. simpl.
      split; [done|]. split; [lia|done].
Qed.

(** *** Capacity utilization *)

Lemma capacityUtilization_of_counters d l m :
  currentCaseLoad (capacity d) = l ->
  maxConcurrentCases (capacity d) = Z.pos m ->
  capacityUtilization d == (l * 100 # m).
Proof.
  intros Hl Hm. unfold capacityUtilization. rewrite Hl, Hm. simpl.
  unfold Qeq, Qdiv, Qmult, Qinv, inject_Z. simpl. lia.
Qed.

(** X3. A DCA with maximum 0 has utilization 0 (no division by zero).
    After a save of a DCA that passes the schema's validators the
    utilization is between 0 and 100; it is 100 exactly when no capacity is
    available and 0 exactly when the load is 0. *)
Theorem capacityUtilization_after_save (d : Doc) (w : World) :
  (maxConcurrentCases (capacity d) = 0 -> capacityUtilization d = 0%Q) /\
  (capacity_valid d ->
     let d' := (save d w).1 in
     (0 <= capacityUtilization d')%Q /\
     (capacityUtilization d' <= 100)%Q /\
     (capacityUtilization d' == 100 <-> availableCapacity d' = 0) /\
     (capacityUtilization d' == 0 <-> currentCaseLoad (capacity d') = 0)).
Proof.
  split.
  - intros H0. unfold capacityUtilization. by rewrite H0.
  - intros [Hmax Hload]. cbv zeta.
    set (d' := (save d w).1).
    assert (Hcap : capacity d' = capacity (pre_save_capacity d))
      by apply DCAProps.save_capacity.
    assert (Hm : maxConcurrentCases (capacity d')
                 = maxConcurrentCases (capacity d)).
    { rewrite Hcap. unfold pre_save_capacity. by destruct (_ >? _). }
    assert (Hl : 0 <= currentCaseLoad (capacity d')
                   <= maxConcurrentCases (capacity d')).
    { rewrite Hcap. unfold pre_save_capacity.
      destruct (Z.gtb_spec (currentCaseLoad (capacity d))
                           (maxConcurrentCases (capacity d))); simpl; lia. }
    destruct (maxConcurrentCases (capacity d')) as [|m|m] eqn:Em; try lia.
    pose proof (capacityUtilization_of_counters d' _ m eq_refl Em) as Hu.
    unfold availableCapacity. rewrite Em.
    rewrite !Hu. unfold Qle, Qeq. simpl. lia.
Qed.

Lemma capacityUtilization_after_save_witness :
  capacity_valid overloaded_dca /\
  (capacityUtilization overloaded_dca == 500 # 3) /\
  (capacityUtilization (save overloaded_dca world0).1 <= 100)%Q.
Proof.
  assert (Hv : capacity_valid overloaded_dca)
    by (split; vm_compute; discriminate).
  destruct (capacityUtilization_after_save overloaded_dca world0)
    as (_ & Hsaved).
  split; [exact Hv|]. split; [reflexivity|].
  apply (Hsaved Hv).
Defined.

(** *** Compliance follows the licenses *)

Lemma forallb_in_force now ls :
  forallb (fun license =>
             bool_decide (licenseStatus license = LicenseStatus.ACTIVE)
             && match expiryDate license with
                | None => true
                | Some e => e >? now
                end) ls = true
  <-> Forall (in_force now) ls.
Proof.
  rewrite forallb_forall, Forall_forall. unfold in_force.
  split; intros H license Hin.
  - apply list_elem_of_In, H in Hin.
    apply andb_true_iff in Hin as [Hs He].
    apply bool_decide_eq_true in Hs. split; [done|].
    intros e Hexp. rewrite Hexp in He. lia.
  - apply list_elem_of_In, H in Hin as [Hs He].
    apply andb_true_iff. split; [by apply bool_decide_eq_true|].
    destruct (expiryDate license) as [e|]; [|done].
    specialize (He e eq_refl). lia.
Qed.

(** X4. A save leaves the licenses as they are.  When they were not
    modified it leaves the compliance status too; when they were, the
    status becomes COMPLIANT if there is at least one license and every
    license is ACTIVE and expires after the instant of the save (or
    never), and NON_COMPLIANT otherwise, so in particular for a DCA
    without licenses. *)
Theorem save_compliance (d : Doc) (w : World) :
  let d' := (save d w).1 in
  licenses (licensing d') = licenses (licensing d) /\
  (licensesModified d = false ->
     complianceStatus (licensing d') = complianceStatus (licensing d)) /\
  (licensesModified d = true ->
     (complianceStatus (licensing d') = COMPLIANT <->
        licenses (licensing d) <> [] /\
        Forall (in_force (upcoming w 0)) (licenses (licensing d))) /\
     (complianceStatus (licensing d') = NON_COMPLIANT <->
        ~ (licenses (licensing d) <> [] /\
           Forall (in_force (upcoming w 0)) (licenses (licensing d))))).
Proof.
  cbv zeta. unfold save.
  assert (Hlic : licensing (pre_save_capacity d) = licensing d).
  { unfold pre_save_capacity. by destruct (_ >? _). }
  assert (Hmod : licensesModified (pre_save_capacity d) = licensesModified d).
  { unfold pre_save_capacity. by destruct (_ >? _). }
  unfold pre_save_compliance, hasValidLicenses. rewrite Hmod, Hlic.
  destruct (licensesModified d).
  - destruct (licenses (licensing d)) as [|l ls] eqn:El.
    + unfold mbind, IO_bind, mret, IO_ret. simpl. rewrite Hlic, El.
      intuition (try done; try congruence).
    + unfold mbind, IO_bind, mret, IO_ret, new_Date, upcoming.
      rewrite Nat.add_0_r. cbn [fst snd].
      pose proof (forallb_in_force (clock w (reads w)) (l :: ls)) as Hall.
      destruct (forallb _ (l :: ls)); simpl; rewrite Hlic, El;
        intuition (try done; try congruence).
  - unfold mret, IO_ret. simpl. rewrite Hlic. done.
Qed.

Lemma save_compliance_witness :
  complianceStatus
    (licensing (save (set_licenses [] (dca_with 5 0)) world0).1)
  = NON_COMPLIANT.
Proof.
  destruct (save_compliance (set_licenses [] (dca_with 5 0)) world0)
    as (_ & _ & Hmodified).
  apply (Hmodified eq_refl). intros [Hne _]. apply Hne. reflexivity.
Defined.

(** *** The availability query and the availability method *)

Lemma findAvailable_of_active n collection :
  findAvailable (Some n) collection =
    filter (fun d => n <= maxConcurrentCases (capacity d)
                          - currentCaseLoad (capacity d))
           (findActive collection).
Proof.
  unfold findAvailable, findActive. simpl.
  rewrite list_filter_filter. apply list_filter_iff. intros d. tauto.
Qed.

(** X5. [findAvailable n] returns, in stored order, documents that
    [findActive] returns too; for [n >= 1] a stored DCA is among them
    exactly when its own [isAvailable n] answers true, so a DCA whose load
    has reached its maximum is never returned; a call without argument
    asks for 1. *)
Theorem findAvailable_isAvailable
    (n : Z) (collection : list Doc) (d : Doc) :
  findAvailable (Some n) collection `sublist_of` findActive collection /\
  findActive collection `sublist_of` collection /\
  (1 <= n ->
     (d ∈ findAvailable (Some n) collection <->
        d ∈ collection /\ isAvailable (Some n) d = true) /\
     (d ∈ findAvailable (Some n) collection ->
        currentCaseLoad (capacity d) < maxConcurrentCases (capacity d))) /\
  findAvailable None collection = findAvailable (Some 1) collection.
Proof.
  split; [rewrite findAvailable_of_active; apply sublist_filter|].
  split; [apply sublist_filter|].
  split; [|done].
  intros Hn.
  assert (Hin : d ∈ findAvailable (Some n) collection <->
                d ∈ collection /\ active d /\
                n <= maxConcurrentCases (capacity d)
                     - currentCaseLoad (capacity d)).
  { unfold findAvailable. rewrite list_elem_of_filter. simpl. tauto. }
  split.
  - rewrite Hin. unfold isAvailable, active, availableCapacity. simpl.
    rewrite !andb_true_iff, !bool_decide_eq_true, negb_true_iff, Z.geb_le.
    split; intros H; repeat split; try tauto; lia.
  - rewrite Hin. lia.
Qed.

Lemma findAvailable_isAvailable_witness :
  findAvailable None [full_dca; idle_dca; overloaded_dca] = [idle_dca] /\
  isAvailable (Some 1) idle_dca = true.
Proof.
  split; [reflexivity|].
  destruct (findAvailable_isAvailable
              1 [full_dca; idle_dca; overloaded_dca] idle_dca)
    as (_ & _ & Hiff & _).
  destruct (Hiff ltac:(reflexivity)) as [Hmem _].
  apply Hmem. unfold findAvailable. rewrite list_elem_of_filter.
  repeat split.
  - vm_compute. discriminate.
  - apply list_elem_of_In. right. left. reflexivity.
Defined.

(** Below 1 the two can disagree: the method clamps the capacity of an
    overloaded DCA to 0, the query sees the negative difference. *)
Example findAvailable_zero_disagrees :
  isAvailable (Some 0) overloaded_dca = true /\
  findAvailable (Some 0) [overloaded_dca] = [].
Proof. split; reflexivity. Qed.

End DCAMoreProps.

(** ** Further properties of the Case model *)
Module CaseMoreProps.
Import Case CaseMore Samples.

(** *** Payments and amounts *)

Lemma totalPaid_snoc c payment :
  totalPaid (set_payments (payments c ++ [payment]) c) =
    if bool_decide (paymentStatus payment = PaymentStatus.COMPLETED)
    then (totalPaid c + amount payment)%Q
    else totalPaid c.
Proof.
  unfold totalPaid. simpl. rewrite filter_app, foldl_app.
  case_bool_decide as Hs.
  - rewrite filter_cons_True by done. done.
  - rewrite filter_cons_False by done. done.
Qed.

Lemma totalPaid_nonneg c :
  Forall (fun payment => (0 <= amount payment)%Q) (payments c) ->
  (0 <= totalPaid c)%Q.
Proof.
  unfold totalPaid. generalize (payments c). intros ps Hall.
  assert (Hgen : forall acc, (0 <= acc)%Q ->
    (0 <= foldl (fun total payment => (total + amount payment)%Q) acc
            (filter (fun payment =>
                       paymentStatus payment = PaymentStatus.COMPLETED) ps))%Q).
  { induction Hall as [|p ps Hp _ IH]; intros acc Hacc; [done|].
    destruct (decide (paymentStatus p = PaymentStatus.COMPLETED)) as [Hs|Hs].
    - rewrite filter_cons_True by done. simpl. apply IH.
      replace 0%Q with (0 + 0)%Q by done. by apply Qplus_le_compat.
    - rewrite filter_cons_False by done. by apply IH. }
  apply Hgen. done.
Qed.

Lemma addPayment_fields payment c w :
  let c' := (addPayment payment c w).1 in
  payments c' = payments c ++ [payment] /\
  originalAmount (debt c') = originalAmount (debt c) /\
  totalPaid c' = totalPaid (set_payments (payments c ++ [payment]) c) /\
  currentAmount (debt c') = Qmax 0 (originalAmount (debt c') - totalPaid c').
Proof.
  cbv zeta. unfold addPayment.
  set (c1 := set_payments (payments c ++ [payment]) c).
  destruct (CaseProps.save_frame c1 w) as (_&Ho&_&_&_&_&_&_&_&_&_&Hp&_).
  split; [by rewrite Hp|]. split; [by rewrite Ho|].
  split; [apply CaseProps.save_totalPaid|].
  apply CaseProps.save_amount_invariant. simpl. by destruct (payments c).
Qed.

(** X6. [addPayment] appends the payment; the total paid grows by its
    amount when its status is COMPLETED and is unchanged otherwise.  On a
    case whose current amount agreed with its payments, a payment that is
    not COMPLETED leaves the current amount as it is, and a COMPLETED one
    of non-negative amount never raises it. *)
Theorem addPayment_accumulates (payment : Payment) (c : Doc) (w : World) :
  let c' := (addPayment payment c w).1 in
  payments c' = payments c ++ [payment] /\
  totalPaid c' =
    (if bool_decide (paymentStatus payment = PaymentStatus.COMPLETED)
     then (totalPaid c + amount payment)%Q else totalPaid c) /\
  (amount_invariant c ->
     paymentStatus payment <> PaymentStatus.COMPLETED ->
     currentAmount (debt c') = currentAmount (debt c)) /\
  (amount_invariant c ->
     (0 <= amount payment)%Q ->
     (currentAmount (debt c') <= currentAmount (debt c))%Q).
Proof.
  cbv zeta.
  destruct (addPayment_fields payment c w) as (Hp & Ho & Ht & Hc).
  rewrite totalPaid_snoc in Ht.
  split; [done|]. split; [done|]. split.
  - intros Hinv Hs. rewrite Hc, Ho, Ht, Hinv.
    by rewrite bool_decide_eq_false_2.
  - intros Hinv Ha. rewrite Hc, Ho, Ht, Hinv.
    apply Q.max_le_compat_l.
    case_bool_decide; lra.
Qed.

Lemma addPayment_accumulates_witness :
  amount_invariant fresh_case /\
  (currentAmount (debt (addPayment payment400 fresh_case world0).1)
   <= currentAmount (debt fresh_case))%Q /\
  totalPaid (addPayment payment400 fresh_case world0).1 == 400.
Proof.
  assert (Hinv : amount_invariant fresh_case) by reflexivity.
  destruct (addPayment_accumulates payment400 fresh_case world0)
    as (_ & Htotal & _ & Hdown).
  split; [exact Hinv|]. split.
  - apply (Hdown Hinv). vm_compute. discriminate.
  - rewrite Htotal. reflexivity.
Defined.



(** *** Aging over time *)

Lemma category_of_monotone d1 d2 :
  d1 <= d2 -> category_rank (category_of d1) <= category_rank (category_of d2).
Proof.
  intros Hle. unfold category_of.
  repeat match goal with
         | |- context [?a <=? ?b] => destruct (Z.leb_spec a b)
         end; simpl; lia.
Qed.

Lemma overdueDays_value c w :
  (overdueDays c w).1 =
    match dueDate (debt c) with
    | None => 0
    | Some due => Z.max 0 ((upcoming w 0 - due) / MS_PER_DAY)
    end.
Proof.
  unfold overdueDays, mbind, IO_bind, mret, IO_ret, new_Date, upcoming.
  rewrite Nat.add_0_r. cbn [fst].
  destruct (dueDate (debt c)) as [due|]; [|done].
  assert (Hday : 0 < MS_PER_DAY) by done.
  destruct (Z.gtb_spec due (clock w (reads w))).
  - assert ((clock w (reads w) - due) / MS_PER_DAY < 0)
      by (apply Z.div_lt_upper_bound; lia).
    lia.
  - assert (0 <= (clock w (reads w) - due) / MS_PER_DAY)
      by (apply Z.div_pos; lia).
    lia.
Qed.

(** X8. The overdue days are never negative, are 0 for a case without
    due date or not yet due, and do not decrease when the clock advances;
    the aging category computed from them never moves back to a younger
    bucket. *)
Theorem overdueDays_monotone (c : Doc) (w1 w2 : World) :
  upcoming w1 0 <= upcoming w2 0 ->
  0 <= (overdueDays c w1).1 <= (overdueDays c w2).1 /\
  category_rank (category_of (overdueDays c w1).1)
    <= category_rank (category_of (overdueDays c w2).1) /\
  (dueDate (debt c) = None -> (overdueDays c w1).1 = 0) /\
  (forall due, dueDate (debt c) = Some due -> upcoming w1 0 <= due ->
     (overdueDays c w1).1 = 0).
Proof.
  intros Hclock.
  assert (Hday : 0 < MS_PER_DAY) by done.
  assert (Hle : 0 <= (overdueDays c w1).1 <= (overdueDays c w2).1).
  { rewrite !overdueDays_value. destruct (dueDate (debt c)) as [due|]; [|lia].
    pose proof (Z.div_le_mono (upcoming w1 0 - due) (upcoming w2 0 - due)
                  MS_PER_DAY Hday ltac:(lia)).
    lia. }
  split; [exact Hle|]. split; [apply category_of_monotone; lia|]. split.
  - intros Hnone. by rewrite overdueDays_value, Hnone.
  - intros due Hdue Hnot. rewrite overdueDays_value, Hdue.
    destruct (Z.eq_dec (upcoming w1 0) due) as [->|Hne].
    + rewrite Z.sub_diag. done.
    + assert ((upcoming w1 0 - due) / MS_PER_DAY < 0)
        by (apply Z.div_lt_upper_bound; lia).
      lia.
Qed.

Lemma overdueDays_monotone_witness :
  (overdueDays stale_case world0).1 = 40 /\
  (overdueDays stale_case world0).1
    <= (overdueDays stale_case (new_Date world0).2).1.
Proof.
  split; [reflexivity|].
  apply (overdueDays_monotone stale_case world0 (new_Date world0).2).
  vm_compute. discriminate.
Defined.

(** *** Case numbers *)

Lemma string_length_app (s1 s2 : string) :
  String.length (s1 +:+ s2) = (String.length s1 + String.length s2)%nat.
Proof. induction s1 as [|a s1 IH]; [done|]. simpl. by rewrite IH. Qed.

Lemma zeros_S k :
  String.concat "" (replicate (S k) "0"%string)
  = ("0" +:+ String.concat "" (replicate k "0"%string))%string.
Proof. destruct k; reflexivity. Qed.

Lemma zeros_length k :
  String.length (String.concat "" (replicate k "0"%string)) = k.
Proof.
  induction k as [|k IH]; [done|].
  rewrite zeros_S, string_length_app, IH. done.
Qed.

Lemma padStart0_length n s :
  String.length (padStart0 n s) = (n `max` String.length s)%nat.
Proof.
  unfold padStart0. rewrite string_length_app, zeros_length. lia.
Qed.

Lemma zeros_digits k u :
  (String.concat "" (replicate k "0"%string) +:+ NilEmpty.string_of_uint u)%string
  = NilEmpty.string_of_uint (Nat.iter k Decimal.D0 u).
Proof.
  induction k as [|k IH]; [done|].
  rewrite zeros_S.
  change (Nat.iter (S k) Decimal.D0 u)
    with (Decimal.D0 (Nat.iter k Decimal.D0 u)).
  cbn [NilEmpty.string_of_uint]. rewrite <- IH. done.
Qed.

Lemma of_uint_zeros k u :
  Z.of_uint (Nat.iter k Decimal.D0 u) = Z.of_uint u.
Proof.
  induction k as [|k IH]; [done|].
  change (Nat.iter (S k) Decimal.D0 u)
    with (Decimal.D0 (Nat.iter k Decimal.D0 u)).
  exact IH.
Qed.

Lemma int_of_digits u :
  u <> Decimal.Nil ->
  NilZero.int_of_string (NilEmpty.string_of_uint u) = Some (Decimal.Pos u).
Proof.
  intros Hu.
  assert (Hparse : NilEmpty.uint_of_string (NilEmpty.string_of_uint u) = Some u)
    by apply NilEmpty.usu.
  destruct u; try done; simpl in *; by rewrite Hparse.
Qed.

Lemma Z_of_string_padded k z :
  0 <= z ->
  Z_of_string (String.concat "" (replicate k "0"%string) +:+ String_of_Z z)%string
  = Some z.
Proof.
  intros Hz. unfold Z_of_string, String_of_Z.
  assert (Hu : exists u, u <> Decimal.Nil /\
                 NilZero.string_of_int (Z.to_int z) = NilEmpty.string_of_uint u /\
                 Z.of_uint u = z).
  { destruct z as [|p|p]; [| |lia].
    - exists (Decimal.D0 Decimal.Nil). done.
    - exists (Pos.to_uint p). split; [apply DecimalPos.Unsigned.to_uint_nonnil|].
      split.
      + simpl. unfold NilZero.string_of_uint.
        pose proof (DecimalPos.Unsigned.to_uint_nonnil p). by destruct (Pos.to_uint p).
      + pose proof (DecimalZ.of_to (Z.pos p)) as Hof. exact Hof. }
  destruct Hu as (u & Hnil & -> & Hval).
  rewrite zeros_digits, int_of_digits.
  - simpl. by rewrite of_uint_zeros, Hval.
  - destruct k; [done|]. simpl. done.
Qed.

Lemma string_app_inv_head (s t1 t2 : string) :
  s +:+ t1 = s +:+ t2 -> t1 = t2.
Proof.
  induction s as [|a s IH]; [done|]. simpl. intros [= H]. by apply IH.
Qed.

(** The sequence part of a generated case number. *)
Lemma save_caseNumber c w :
  caseNumber (save c w).1 =
    if needsCaseNumber c
    then Some ("CASE-" +:+ String_of_Z (getFullYear w (upcoming w 0)) +:+ "-"
               +:+ padStart0 6
                     (String_of_Z
                        (countDocuments w (getFullYear w (upcoming w 0)) + 1)))
    else caseNumber c.
Proof.
  CaseProps.run_hooks. unfold upcoming. rewrite Nat.add_0_r.
  destruct (needsCaseNumber c), (dueDate (debt c)) eqn:Hd,
           (payments c) eqn:Hp;
    simpl; rewrite ?Hd, ?Hp; simpl; rewrite ?Hd, ?Hp; done.
Qed.

Lemma needsCaseNumber_after_save c w : needsCaseNumber (save c w).1 = false.
Proof.
  unfold needsCaseNumber at 1. rewrite save_caseNumber.
  destruct (CaseProps.save_frame c w) as (_&_&_&_&_&_&_&_&_&_&_&_&_&->).
  destruct (needsCaseNumber c) eqn:Hn.
  - apply andb_false_iff. right. apply bool_decide_eq_false.
    intros [H|H]; discriminate.
  - exact Hn.
Qed.



(** *** The recorded history *)

Lemma perform_history call c w :
  let c' := (perform call c w).1 in
  communications c' = communications c ++ recorded_communications [call] /\
  payments c' = payments c ++ recorded_payments [call] /\
  escalations c' = escalations c ++ recorded_escalations [call] /\
  customerId c' = customerId c /\
  originalAmount (debt c') = originalAmount (debt c) /\
  dueDate (debt c') = dueDate (debt c).
Proof.
  cbv zeta. destruct call as [x|x|x|]; unfold perform.
  - unfold addCommunication, new_Date, mbind, IO_bind, mret, IO_ret.
    destruct (firstContact (dates _)) eqn:Hf;
      match goal with |- context [save ?c1 ?w1] =>
        destruct (CaseProps.save_frame c1 w1)
          as (->&->&_&->&_&_&_&_&_&_&->&->&->&_) end;
      simpl; rewrite !app_nil_r; done.
  - unfold addPayment.
    match goal with |- context [save ?c1 ?w1] =>
      destruct (CaseProps.save_frame c1 w1)
        as (->&->&_&->&_&_&_&_&_&_&->&->&->&_) end.
    simpl. rewrite !app_nil_r. done.
  - unfold escalate, new_Date, mbind, IO_bind.
    match goal with |- context [save ?c1 ?w1] =>
      destruct (CaseProps.save_frame c1 w1)
        as (->&->&_&->&_&_&_&_&_&_&->&->&->&_) end.
    simpl. rewrite !app_nil_r. done.
  - destruct (CaseProps.save_frame c w)
      as (->&->&_&->&_&_&_&_&_&_&->&->&->&_).
    simpl. rewrite !app_nil_r. done.
Qed.

(** X10. Whatever sequence of [addCommunication], [addPayment],
    [escalate] and [save] calls is made on a case, its communications,
    payments and escalations afterwards are the ones it had, in the same
    order, followed by the ones the calls recorded, in call order: no call
    drops, reorders or rewrites an entry.  The customer, the original
    amount and the due date are never changed. *)
Theorem perform_all_history (calls : list Call) (c : Doc) (w : World) :
  let c' := (perform_all calls c w).1 in
  communications c' = communications c ++ recorded_communications calls /\
  payments c' = payments c ++ recorded_payments calls /\
  escalations c' = escalations c ++ recorded_escalations calls /\
  customerId c' = customerId c /\
  originalAmount (debt c') = originalAmount (debt c) /\
  dueDate (debt c') = dueDate (debt c).
Proof.
  cbv zeta. revert c w. induction calls as [|call calls IH]; intros c w.
  - simpl. rewrite !app_nil_r. done.
  - cbn [perform_all]. unfold mbind, IO_bind.
    destruct (perform_history call c w) as (Hc & Hp & He & Hid & Ho & Hd).
    destruct (perform call c w) as [c1 w1]. cbn [fst] in *.
    destruct (IH c1 w1) as (Hc' & Hp' & He' & Hid' & Ho' & Hd').
    rewrite Hc', Hp', He', Hid', Ho', Hd', Hc, Hp, He, Hid, Ho, Hd.
    rewrite <- !app_assoc.
    unfold recorded_communications, recorded_payments, recorded_escalations.
    destruct call; simpl; done.
Qed.

End CaseMoreProps.

(** ** Properties of the User model *)
Module UserProps.
Import User UserSamples Samples.

(** *** Failed logins and the lock *)

Lemma incLoginAttempts_unlocked_below u w :
  lockUntil u = None -> attempts u + 1 < 5 ->
  incLoginAttempts u w = (set_loginAttempts (Some (attempts u + 1)) u, w).
Proof.
  intros Hl Ha. unfold incLoginAttempts. rewrite Hl.
  unfold mbind, IO_bind, mret, IO_ret.
  destruct (Z.geb_spec (attempts u + 1) 5); [lia|done].
Qed.

Lemma incLoginAttempts_unlocked_reaching u w :
  lockUntil u = None -> 5 <= attempts u + 1 ->
  incLoginAttempts u w =
    (set_lockUntil (Some (upcoming w 0 + 2 * 60 * 60 * 1000))
       (set_loginAttempts (Some (attempts u + 1)) u),
     (new_Date w).2).
Proof.
  intros Hl Ha. unfold incLoginAttempts, isLocked. rewrite Hl.
  unfold mbind, IO_bind, mret, IO_ret, Date_now, new_Date, upcoming.
  destruct (Z.geb_spec (attempts u + 1) 5); [|lia].
  simpl. by rewrite Nat.add_0_r.
Qed.

Lemma incLoginAttempts_times_below n : forall u w,
  lockUntil u = None -> 0 <= attempts u -> attempts u + Z.of_nat n < 5 ->
  (0 < n)%nat ->
  incLoginAttempts_times n u w =
    (set_loginAttempts (Some (attempts u + Z.of_nat n)) u, w).
Proof.
  induction n as [|n IH]; intros u w Hl H0 Ha Hn; [lia|].
  cbn [incLoginAttempts_times]. unfold mbind, IO_bind.
  rewrite incLoginAttempts_unlocked_below by (done || lia).
  destruct n as [|n].
  - cbn [incLoginAttempts_times]. unfold mret, IO_ret.
    replace (attempts u + Z.of_nat 1) with (attempts u + 1) by lia. done.
  - assert (Hnext : attempts (set_loginAttempts (Some (attempts u + 1)) u)
                    = attempts u + 1) by done.
    rewrite IH; rewrite ?Hnext; try done; try lia.
    replace (attempts u + 1 + Z.of_nat (S n))
      with (attempts u + Z.of_nat (S (S n))) by lia.
    done.
Qed.

(** X11. On an account that is not locked and has no failed attempt on
    record (as after [resetLoginAttempts]), fewer than five failed logins
    in a row only count, without reading the clock and without locking;
    the fifth sets the counter to 5 and locks the account until two hours
    after its instant, so that [isLocked] answers true at every earlier
    instant. *)
Theorem incLoginAttempts_five (u : Doc) (w : World) :
  lockUntil u = None ->
  attempts u = 0 ->
  (forall n, (0 < n < 5)%nat ->
     incLoginAttempts_times n u w
       = (set_loginAttempts (Some (Z.of_nat n)) u, w)) /\
  let u5 := (incLoginAttempts_times 5 u w).1 in
  loginAttempts u5 = Some 5 /\
  lockUntil u5 = Some (upcoming w 0 + 2 * 60 * 60 * 1000) /\
  (forall w', upcoming w' 0 < upcoming w 0 + 2 * 60 * 60 * 1000 ->
     (isLocked u5 w').1 = true) /\
  (forall u0, lockUntil (resetLoginAttempts u0) = None /\
              attempts (resetLoginAttempts u0) = 0).
Proof.
  intros Hl Ha.
  assert (Hbelow : forall n, (0 < n < 5)%nat ->
     incLoginAttempts_times n u w
       = (set_loginAttempts (Some (Z.of_nat n)) u, w)).
  { intros n Hn. rewrite incLoginAttempts_times_below; try done; try lia.
    by rewrite Ha. }
  split; [exact Hbelow|]. cbv zeta.
  assert (H5 : incLoginAttempts_times 5 u w =
    (set_lockUntil (Some (upcoming w 0 + 2 * 60 * 60 * 1000))
       (set_loginAttempts (Some 5) u), (new_Date w).2)).
  { change 5%nat with (4 + 1)%nat.
    assert (Hsplit : forall a b v x,
      incLoginAttempts_times (a + b) v x =
        incLoginAttempts_times b (incLoginAttempts_times a v x).1
                                 (incLoginAttempts_times a v x).2).
    { induction a as [|a IHa]; intros b v x; [done|].
      cbn [Nat.add incLoginAttempts_times]. unfold mbind, IO_bind.
      destruct (incLoginAttempts v x) as [v1 x1]. apply IHa. }
    rewrite Hsplit, (Hbelow 4%nat) by lia. cbn [fst snd].
    cbn [incLoginAttempts_times]. unfold mbind, IO_bind.
    rewrite incLoginAttempts_unlocked_reaching; [done|done|].
    unfold attempts. simpl. lia. }
  rewrite H5. cbn [fst].
  split; [done|]. split; [done|]. split; [|done].
  intros w' Hw'. unfold isLocked, Date_now, new_Date, upcoming in *.
  rewrite Nat.add_0_r in *. simpl. unfold mbind, IO_bind, mret, IO_ret.
  simpl. apply Z.gtb_lt. rewrite Nat.add_0_r in Hw'. exact Hw'.
Qed.

Lemma incLoginAttempts_five_witness :
  lockUntil manager = None /\ attempts manager = 0 /\
  lockUntil (incLoginAttempts_times 5 manager world0).1
    = Some (1700000000000 + 7200000).
Proof.
  assert (Hl : lockUntil manager = None) by reflexivity.
  assert (Ha : attempts manager = 0) by reflexivity.
  destruct (incLoginAttempts_five manager world0 Hl Ha)
    as (_ & _ & Hlock & _).
  split; [exact Hl|]. split; [exact Ha|]. exact Hlock.
Defined.

(** X12. On a locked account a failed login after the lock has expired
    removes the lock and restarts the counter at 1; while the lock still
    holds, a failed login adds one to the counter and leaves the end of
    the lock where it was: failures during a lock do not extend it. *)
Theorem incLoginAttempts_locked (u : Doc) (w : World) (l : Z) :
  lockUntil u = Some l ->
  (l < upcoming w 0 ->
     let u' := (incLoginAttempts u w).1 in
     loginAttempts u' = Some 1 /\ lockUntil u' = None) /\
  (upcoming w 0 <= l -> upcoming w 1 < l ->
     let u' := (incLoginAttempts u w).1 in
     loginAttempts u' = Some (attempts u + 1) /\ lockUntil u' = Some l).
Proof.
  intros Hl. unfold upcoming. rewrite Nat.add_0_r, Nat.add_1_r.
  unfold incLoginAttempts, isLocked. rewrite Hl.
  unfold mbind, IO_bind, mret, IO_ret, Date_now, new_Date. cbn [fst snd].
  split.
  - intros Hexp. destruct (Z.ltb_spec l (clock w (reads w))); [done|lia].
  - intros Hnot Hstill.
    destruct (Z.ltb_spec l (clock w (reads w))); [lia|].
    destruct (attempts u + 1 >=? 5); cbn; [|done].
    destruct (Z.gtb_spec l (clock w (S (reads w)))); [done|lia].
Qed.

Lemma incLoginAttempts_locked_witness :
  lockUntil locked_user = Some (1700000000000 + 3600000) /\
  lockUntil (incLoginAttempts locked_user world0).1
    = Some (1700000000000 + 3600000) /\
  loginAttempts (incLoginAttempts locked_user world0).1 = Some 6.
Proof.
  assert (Hl : lockUntil locked_user = Some (1700000000000 + 3600000))
    by reflexivity.
  destruct (incLoginAttempts_locked locked_user world0 _ Hl) as (_ & Hheld).
  split; [exact Hl|].
  assert (H0 : upcoming world0 0 <= 1700000000000 + 3600000)
    by (vm_compute; discriminate).
  assert (H1 : upcoming world0 1 < 1700000000000 + 3600000)
    by (vm_compute; reflexivity).
  destruct (Hheld H0 H1) as [Hcount Hlock].
  split; [exact Hlock|exact Hcount].
Defined.

(** *** Refresh tokens *)

Lemma slice_keep_last {A} (k : nat) (l : list A) :
  (0 < k)%nat -> slice (- Z.of_nat k) l = keep_last k l.
Proof.
  intros Hk. unfold slice, keep_last.
  destruct (Z.ltb_spec (- Z.of_nat k) 0); [|lia]. f_equal. lia.
Qed.

Lemma generateRefreshToken_tokens refreshToken deviceInfo u w :
  refreshTokens (generateRefreshToken refreshToken deviceInfo u w).1.2 =
    keep_last 5
      (refreshTokens u
       ++ [mkRefreshToken refreshToken (upcoming w 0 + THIRTY_DAYS)
                          (default EmptyString deviceInfo)]).
Proof.
  unfold generateRefreshToken, mbind, IO_bind, mret, IO_ret, Date_now,
    new_Date, upcoming.
  rewrite Nat.add_0_r. cbn [fst snd refreshTokens set_refreshTokens].
  set (pushed := refreshTokens u ++ _).
  destruct (Nat.ltb_spec 5 (length pushed)).
  - apply (slice_keep_last 5). lia.
  - unfold keep_last. by replace (length pushed - 5)%nat with 0%nat by lia.
Qed.

Lemma keep_last_length {A} n (l : list A) :
  length (keep_last n l) = (n `min` length l)%nat.
Proof. unfold keep_last. rewrite length_drop. lia. Qed.

Lemma keep_last_app {A} n (l k : list A) :
  keep_last n (keep_last n l ++ k) = keep_last n (l ++ k).
Proof.
  unfold keep_last. rewrite !length_app, length_drop.
  rewrite !drop_app, drop_drop, length_drop. f_equal; f_equal; lia.
Qed.

Lemma tokenExists_absent refreshToken tokens w :
  refreshToken ∉ map token tokens ->
  tokenExists refreshToken tokens w = (false, w).
Proof.
  induction tokens as [|t tokens IH]; intros Hnot; [done|].
  cbn [tokenExists].
  destruct (String.eqb_spec (token t) refreshToken) as [Heq|Hne].
  - exfalso. apply Hnot. rewrite <- Heq. simpl. left.
  - apply IH. intros Hin. apply Hnot. simpl. by right.
Qed.

Lemma tokenExists_last refreshToken tokens entry w :
  refreshToken ∉ map token tokens ->
  token entry = refreshToken ->
  (tokenExists refreshToken (tokens ++ [entry]) w).1
    = (expiresAt entry >? upcoming w 0).
Proof.
  intros Hnot Htok. induction tokens as [|t tokens IH].
  - cbn [app tokenExists]. rewrite Htok, String.eqb_refl.
    unfold mbind, IO_bind, mret, IO_ret, new_Date, upcoming.
    rewrite Nat.add_0_r. cbn [fst snd]. by destruct (_ >? _).
  - cbn [app tokenExists].
    destruct (String.eqb_spec (token t) refreshToken) as [Heq|Hne].
    + exfalso. apply Hnot. rewrite <- Heq. simpl. left.
    + apply IH. intros Hin. apply Hnot. simpl. by right.
Qed.

Lemma map_keep_last {A B} (f : A -> B) n (l : list A) :
  map f (keep_last n l) = keep_last n (map f l).
Proof. unfold keep_last. by rewrite List.length_map, List.skipn_map. Qed.

Lemma generateRefreshToken_each_tokens signed : forall u w,
  (length (refreshTokens u) <= 5)%nat ->
  map token (refreshTokens (generateRefreshToken_each signed u w).1)
    = keep_last 5 (map token (refreshTokens u) ++ signed).
Proof.
  induction signed as [|s signed IH]; intros u w Hlen.
  - simpl. rewrite app_nil_r. unfold keep_last.
    rewrite List.length_map.
    by replace (length (refreshTokens u) - 5)%nat with 0%nat by lia.
  - cbn [generateRefreshToken_each]. unfold mbind, IO_bind.
    pose proof (generateRefreshToken_tokens s None u w) as Hgen.
    destruct (generateRefreshToken s None u w) as [[s' u1] w1].
    cbn [fst snd] in *.
    rewrite IH by (rewrite Hgen, keep_last_length; lia).
    rewrite Hgen, map_keep_last, List.map_app. cbn [map token].
    rewrite keep_last_app, <- app_assoc. done.
Qed.

(** X13. [generateRefreshToken] returns the signed token and leaves in
    [refreshTokens] the last five entries of the old list followed by a
    new entry for the token, expiring thirty days after the instant of
    the call: the new entry is the last one and there are never more than
    five.  When no older entry carries the same token, the test of
    [validateRefreshToken] accepts the token exactly as long as the clock
    is before that expiry. *)
Theorem generateRefreshToken_window
    (refreshToken : string) (deviceInfo : option string)
    (u : Doc) (w : World) :
  let r := (generateRefreshToken refreshToken deviceInfo u w).1 in
  let entry := mkRefreshToken refreshToken (upcoming w 0 + THIRTY_DAYS)
                              (default EmptyString deviceInfo) in
  r.1 = refreshToken /\
  refreshTokens r.2 = keep_last 5 (refreshTokens u ++ [entry]) /\
  last (refreshTokens r.2) = Some entry /\
  (length (refreshTokens r.2) <= 5)%nat /\
  refreshTokens r.2 `suffix_of` refreshTokens u ++ [entry] /\
  (refreshToken ∉ map token (refreshTokens u) ->
   forall w',
     (tokenExists refreshToken (refreshTokens r.2) w').1 = true
     <-> upcoming w' 0 < upcoming w 0 + THIRTY_DAYS).
Proof.
  cbv zeta.
  pose proof (generateRefreshToken_tokens refreshToken deviceInfo u w) as Hk.
  set (entry := mkRefreshToken _ _ _) in *.
  assert (Hdrop : keep_last 5 (refreshTokens u ++ [entry])
                  = keep_last 4 (refreshTokens u) ++ [entry]).
  { unfold keep_last. rewrite length_app. cbn [length].
    rewrite drop_app_le by lia. do 2 f_equal. lia. }
  split; [done|]. split; [exact Hk|]. rewrite Hk.
  split; [rewrite Hdrop; apply last_snoc|].
  split; [rewrite keep_last_length; lia|].
  split; [apply suffix_drop|].
  intros Hnot w'. rewrite Hdrop, tokenExists_last; [|..|done].
  - cbn [expiresAt entry]. rewrite Z.gtb_lt. done.
  - intros Hin. apply Hnot.
    unfold keep_last in Hin. rewrite <- List.skipn_map in Hin.
    eapply subseteq_drop. exact Hin.
Qed.

Lemma generateRefreshToken_window_witness :
  (tokenExists "rt-1"
     (refreshTokens (generateRefreshToken "rt-1" None manager world0).1.2)
     world0).1 = true.
Proof.
  destruct (generateRefreshToken_window "rt-1" None manager world0)
    as (_ & _ & _ & _ & _ & Hvalid).
  apply Hvalid.
  - intros Hin. apply list_elem_of_In in Hin. destruct Hin.
  - vm_compute. reflexivity.
Defined.

(** X14. A refresh token does not outlive five newer ones: once it was
    issued and at least five tokens with other strings were issued after
    it, no entry carries it any more and the test of
    [validateRefreshToken] refuses it, at any instant. *)
Theorem generateRefreshToken_evicts
    (refreshToken : string) (later : list string) (u : Doc) (w w' : World) :
  refreshToken ∉ later ->
  (5 <= length later)%nat ->
  let issued := generateRefreshToken refreshToken None u w in
  let u' := (generateRefreshToken_each later issued.1.2 issued.2).1 in
  (refreshToken ∉ map token (refreshTokens u')) /\
  tokenExists refreshToken (refreshTokens u') w' = (false, w').
Proof.
  intros Hnot Hlen. cbv zeta.
  pose proof (generateRefreshToken_tokens refreshToken None u w) as Hk.
  destruct (generateRefreshToken refreshToken None u w) as [[s u1] w1].
  cbn [fst snd] in *.
  assert (Habsent : refreshToken
            ∉ map token (refreshTokens (generateRefreshToken_each later u1 w1).1)).
  { rewrite generateRefreshToken_each_tokens
      by (rewrite Hk, keep_last_length; lia).
    unfold keep_last. rewrite length_app, drop_app_ge by lia.
    intros Hin. apply Hnot. eapply subseteq_drop. exact Hin. }
  split; [exact Habsent|]. by apply tokenExists_absent.
Qed.

Lemma generateRefreshToken_evicts_witness :
  tokenExists "rt-1"
    (refreshTokens
       (generateRefreshToken_each ["rt-2"; "rt-3"; "rt-4"; "rt-5"; "rt-6"]
          (generateRefreshToken "rt-1" None manager world0).1.2
          (generateRefreshToken "rt-1" None manager world0).2).1)
    world0 = (false, world0).
Proof.
  apply (generateRefreshToken_evicts "rt-1"
           ["rt-2"; "rt-3"; "rt-4"; "rt-5"; "rt-6"] manager world0 world0).
  - intros Hin. repeat (apply elem_of_cons in Hin as [Hin|Hin];
                        [discriminate|]).
    by apply elem_of_nil in Hin.
  - simpl. lia.
Defined.

(** *** Saving a user *)

Section SaveProps.

Variable bcrypt_hash : option string -> Z -> JsError + string.
Variable BCRYPT_SALT_ROUNDS : option Z.

#[local] Abbreviation save := (User.save bcrypt_hash BCRYPT_SALT_ROUNDS).
#[local] Abbreviation rounds := (saltRounds BCRYPT_SALT_ROUNDS).

Lemma save_run u w :
  save u w =
    if passwordModified u
    then match bcrypt_hash (password u) rounds with
         | inr hashed =>
             if isNew u
             then (Completed,
                   pre_save_permissions (set_password (Some hashed) u), w)
             else (Completed,
                   pre_save_permissions
                     (set_passwordChangedAt (Some (upcoming w 0 - 1000))
                        (set_password (Some hashed) u)),
                   (new_Date w).2)
         | inl error => (Throws error, u, w)
         end
    else (Completed, pre_save_permissions u, w).
Proof.
  unfold User.save, pre_save_password, mbind, IO_bind, mret, IO_ret,
    Date_now, new_Date, upcoming.
  rewrite Nat.add_0_r.
  destruct (passwordModified u); [|done]. cbn [negb].
  destruct (bcrypt_hash (password u) rounds) as [error|hashed]; [done|].
  cbn [isNew set_password]. by destruct (isNew u).
Qed.

(** X15. A save that completes gives a new user, or a user whose role was
    modified, exactly the permission list of the role, whatever list the
    document carried; any other user keeps its list.  The lists grow from
    dca_user to enterprise_manager to admin, and [hasPermission] answers
    true to an admin for every permission, even with an empty list.  A
    save whose password hashing fails leaves the document as it was. *)
Theorem save_permissions (u : Doc) (w : World) :
  let r := (save u w).1 in
  (r.1 = Completed ->
     role r.2 = role u /\
     (roleModified u || isNew u = true ->
        permissions r.2 = role_permissions (role u)) /\
     (roleModified u || isNew u = false ->
        permissions r.2 = permissions u)) /\
  (forall error, r.1 = Throws error -> r.2 = u) /\
  role_permissions dca_user ⊆ role_permissions enterprise_manager /\
  role_permissions enterprise_manager ⊆ role_permissions admin /\
  (forall permission, role u = admin -> hasPermission permission u = true).
Proof.
  cbv zeta. rewrite save_run.
  assert (Hperm : forall v,
    role (pre_save_permissions v) = role v /\
    (roleModified v || isNew v = true ->
       permissions (pre_save_permissions v) = role_permissions (role v)) /\
    (roleModified v || isNew v = false ->
       permissions (pre_save_permissions v) = permissions v)).
  { intros v. unfold pre_save_permissions.
    destruct (roleModified v || isNew v); done. }
  split; [|split; [|split; [|split]]].
  - destruct (passwordModified u); [|intros _; apply Hperm].
    destruct (bcrypt_hash (password u) rounds) as [error|hashed]; [done|].
    destruct (isNew u) eqn:Hnew; intros _; cbn [fst snd].
    + destruct (Hperm (set_password (Some hashed) u)) as (Hr & Ht & Hf).
      cbn [role roleModified isNew permissions set_password] in *.
      rewrite Hnew in *. done.
    + destruct (Hperm (set_passwordChangedAt (Some (upcoming w 0 - 1000))
                         (set_password (Some hashed) u))) as (Hr & Ht & Hf).
      cbn [role roleModified isNew permissions set_password
           set_passwordChangedAt] in *.
      rewrite Hnew in *. done.
  - intros error.
    destruct (passwordModified u); [|done].
    destruct (bcrypt_hash (password u) rounds) as [e|hashed]; [done|].
    by destruct (isNew u).
  - intros p Hp. vm_compute in Hp. vm_compute.
    repeat (apply elem_of_cons in Hp as [->|Hp];
            [repeat (constructor; try done)|]).
    by apply elem_of_nil in Hp.
  - intros p Hp. vm_compute in Hp. vm_compute.
    repeat (apply elem_of_cons in Hp as [->|Hp];
            [repeat (constructor; try done)|]).
    by apply elem_of_nil in Hp.
  - intros permission Hadmin. unfold hasPermission.
    rewrite Hadmin. apply orb_true_iff. right. by apply bool_decide_eq_true.
Qed.

(** X16. When a stored user is saved with a modified password that
    hashes to [hashed], the password becomes [hashed] and the change is
    dated one second before the instant [t] of the save.  A token is then
    refused by [changedPasswordAfter] exactly when its issue time, in
    seconds, is below t / 1000 - 1: every token issued at or after the
    save passes, and so does one issued during the second before it.  A
    user whose password was never changed refuses no token. *)
Theorem save_password_change (u : Doc) (w : World) (hashed : string) :
  passwordModified u = true ->
  isNew u = false ->
  bcrypt_hash (password u) rounds = inr hashed ->
  1000 <= upcoming w 0 ->
  let r := (save u w).1 in
  r.1 = Completed /\
  password r.2 = Some hashed /\
  passwordChangedAt r.2 = Some (upcoming w 0 - 1000) /\
  (forall iat, changedPasswordAfter iat r.2 = true
               <-> iat < upcoming w 0 / 1000 - 1) /\
  (forall iat, upcoming w 0 / 1000 <= iat ->
               changedPasswordAfter iat r.2 = false) /\
  (forall v iat, passwordChangedAt v = None ->
                 changedPasswordAfter iat v = false).
Proof.
  intros Hmod Hnew Hhash Ht. cbv zeta.
  rewrite save_run, Hmod, Hhash, Hnew. cbn [fst snd].
  assert (Hfields : forall v,
    password (pre_save_permissions v) = password v /\
    passwordChangedAt (pre_save_permissions v) = passwordChangedAt v).
  { intros v. unfold pre_save_permissions.
    by destruct (roleModified v || isNew v). }
  destruct (Hfields (set_passwordChangedAt (Some (upcoming w 0 - 1000))
                       (set_password (Some hashed) u))) as [Hp Hc].
  cbn [password passwordChangedAt set_password set_passwordChangedAt] in *.
  assert (Hquot : (upcoming w 0 - 1000) ÷ 1000 = upcoming w 0 / 1000 - 1).
  { rewrite Z.quot_div_nonneg by lia.
    replace (upcoming w 0 - 1000) with (upcoming w 0 + (-1) * 1000) by lia.
    rewrite Z.div_add by lia. lia. }
  split; [done|]. split; [done|]. split; [done|].
  unfold changedPasswordAfter. rewrite Hc, Hquot.
  split; [intros iat; apply Z.ltb_lt|].
  split.
  - intros iat Hiat. apply Z.ltb_ge. lia.
  - intros v iat Hnone. by rewrite Hnone.
Qed.

End SaveProps.

Lemma save_permissions_witness :
  permissions greedy_registration = ["system.admin"; "users.delete"]%string /\
  permissions (User.save demo_hash None greedy_registration world0).1.2
    = dca_user_permissions /\
  hasPermission "system.admin" bare_admin = true.
Proof.
  destruct (save_permissions demo_hash None greedy_registration world0)
    as (Hsaved & _ & _ & _ & _).
  destruct (save_permissions demo_hash None bare_admin world0)
    as (_ & _ & _ & _ & Hadmin).
  split; [reflexivity|]. split.
  - destruct (Hsaved eq_refl) as (_ & Hnew & _). apply Hnew. reflexivity.
  - apply Hadmin. reflexivity.
Defined.

Lemma save_password_change_witness :
  passwordChangedAt (User.save demo_hash None changing_user world0).1.2
    = Some (1700000000000 - 1000) /\
  changedPasswordAfter 1700000000
    (User.save demo_hash None changing_user world0).1.2 = false.
Proof.
  destruct (save_password_change demo_hash None changing_user world0
              "hashed:N3w-passw0rd!" eq_refl eq_refl eq_refl)
    as (_ & _ & Hdate & _ & Hlater & _).
  - vm_compute. discriminate.
  - split; [exact Hdate|]. apply Hlater. vm_compute. discriminate.
Defined.

End UserProps.

(** ** Properties of the authentication middleware *)
Module AuthMiddlewareProps.
Import AuthMiddleware UserSamples Samples AuthSamples.

(** *** Roles and permissions *)

(** X17. Without an authenticated user [authorize] and
    [requirePermission] answer 401 and log nothing.  With one,
    [authorize] calls [next()] exactly when the user's role is among the
    roles given, and [requirePermission] exactly when the permission is in
    the user's list or the user is an admin; any other request is answered
    403 and logged as a security event.  A user that [authorize('admin')]
    lets through is let through by every [requirePermission]. *)
Theorem authorize_requirePermission
    (roles : list string) (permission : string) (u : User.Doc) :
  authorize roles None
    = (Respond (mkResponse 401 "Authentication required." None), []) /\
  requirePermission permission None
    = (Respond (mkResponse 401 "Authentication required." None), []) /\
  ((authorize roles (Some u)).1 = Next tt
     <-> User.role_name (User.role u) ∈ roles) /\
  ((requirePermission permission (Some u)).1 = Next tt
     <-> permission ∈ User.permissions u \/ User.role u = User.admin) /\
  ((authorize roles (Some u)).1 <> Next tt ->
     authorize roles (Some u)
       = (Respond (mkResponse 403 "Access denied. Insufficient permissions."
                              None),
          [Security "Unauthorized access attempt"])) /\
  ((requirePermission permission (Some u)).1 <> Next tt ->
     exists text,
       requirePermission permission (Some u)
         = (Respond (mkResponse 403 text None),
            [Security "Permission denied"])) /\
  ((authorize ["admin"%string] (Some u)).1 = Next tt ->
     forall p, (requirePermission p (Some u)).1 = Next tt).
Proof.
  split; [done|]. split; [done|].
  assert (Hauth : (authorize roles (Some u)).1 = Next tt
                  <-> User.role_name (User.role u) ∈ roles).
  { unfold authorize. case_bool_decide; simpl; split; done. }
  assert (Hperm : forall p, (requirePermission p (Some u)).1 = Next tt
                  <-> p ∈ User.permissions u \/ User.role u = User.admin).
  { intros p. unfold requirePermission, User.hasPermission.
    destruct (bool_decide (p ∈ User.permissions u)) eqn:E1;
      destruct (bool_decide (User.role u = User.admin)) eqn:E2; simpl;
      try apply bool_decide_eq_true in E1;
      try apply bool_decide_eq_true in E2;
      try apply bool_decide_eq_false in E1;
      try apply bool_decide_eq_false in E2;
      split; try done; try tauto. }
  split; [exact Hauth|]. split; [apply Hperm|]. split; [|split].
  - unfold authorize. case_bool_decide; simpl; done.
  - unfold requirePermission. destruct (User.hasPermission permission u);
      simpl; [done|]. intros _. by eexists.
  - intros Hadmin p. apply Hperm. right.
    unfold authorize in Hadmin. case_bool_decide as Hin; [|done].
    apply list_elem_of_singleton in Hin.
    by destruct (User.role u).
Qed.

Lemma authorize_requirePermission_witness :
  (requirePermission "cases.delete" (Some agent)).1
    = Respond (mkResponse 403
                 "Access denied. Required permission: cases.delete" None) /\
  (requirePermission "cases.delete" (Some bare_admin)).1 = Next tt.
Proof.
  split; [reflexivity|].
  apply (authorize_requirePermission ["admin"%string] "cases.delete"
                                     bare_admin).
  reflexivity.
Defined.

(** *** The agency of a DCA user *)

(** X18. [requireDCAAssociation] answers 401 without a user and lets
    every user who is not a dca_user through without consulting the
    store.  A dca_user is let through exactly when the document has a
    [dcaId], the store finds that DCA and its status is ACTIVE, and the
    DCA found is then attached to the request; in particular every DCA
    whose [isAvailable] answers true passes.  A failing store is answered
    500 and logged. *)
Theorem requireDCAAssociation_access
    (DCA_findById : string -> JsError + option DCA.Doc)
    (u : User.Doc) (dca : DCA.Doc) :
  requireDCAAssociation DCA_findById None
    = (Respond (mkResponse 401 "Authentication required." None), []) /\
  (User.role u <> User.dca_user ->
     requireDCAAssociation DCA_findById (Some u) = (Next None, [])) /\
  (User.role u = User.dca_user ->
     ((requireDCAAssociation DCA_findById (Some u)).1 = Next (Some dca)
        <-> exists dcaId,
              User.dcaId u = Some dcaId /\
              DCA_findById dcaId = inr (Some dca) /\
              DCA.status dca = DCA.ACTIVE) /\
     (requireDCAAssociation DCA_findById (Some u)).1 <> Next None /\
     (forall dcaId n,
        User.dcaId u = Some dcaId ->
        DCA_findById dcaId = inr (Some dca) ->
        DCA.isAvailable n dca = true ->
        requireDCAAssociation DCA_findById (Some u) = (Next (Some dca), [])) /\
     (forall dcaId error,
        User.dcaId u = Some dcaId ->
        DCA_findById dcaId = inl error ->
        requireDCAAssociation DCA_findById (Some u)
          = (Respond (mkResponse 500 "DCA association check failed." None),
             [ErrorLog error]))).
Proof.
  split; [done|]. split.
  - intros Hrole. unfold requireDCAAssociation.
    by rewrite bool_decide_eq_false_2.
  - intros Hrole. unfold requireDCAAssociation.
    rewrite bool_decide_eq_true_2 by done.
    split; [|split; [|split]].
    + destruct (User.dcaId u) as [dcaId|].
      * destruct (DCA_findById dcaId) as [error|[found|]] eqn:Hfind.
        -- split; [done|]. intros (i & [= <-] & Hf & _). congruence.
        -- case_bool_decide as Hst; simpl.
           ++ split.
              ** intros [= ->]. by exists dcaId.
              ** intros (i & [= <-] & Hf & _). congruence.
           ++ split; [done|].
              intros (i & [= <-] & Hf & Hact). congruence.
        -- split; [done|]. intros (i & [= <-] & Hf & _). congruence.
      * split; [done|]. intros (i & Hid & _). done.
    + destruct (User.dcaId u) as [dcaId|]; [|done].
      destruct (DCA_findById dcaId) as [error|[found|]]; try done.
      by case_bool_decide.
    + intros dcaId n -> -> Havail.
      unfold DCA.isAvailable in Havail.
      apply andb_true_iff in Havail as [Havail _].
      apply andb_true_iff in Havail as [Havail _].
      apply andb_true_iff in Havail as [Havail _].
      by rewrite Havail.
    + intros dcaId error -> ->. done.
Qed.

Lemma requireDCAAssociation_access_witness :
  requireDCAAssociation (fun _ => inr (Some idle_dca))
    (Some (User.mkDoc "u1" "a@b.co" None User.dca_user [] (Some "d1") true
                      None None None [] None None false false false))
  = (Next (Some idle_dca), []).
Proof.
  destruct (requireDCAAssociation_access (fun _ => inr (Some idle_dca))
    (User.mkDoc "u1" "a@b.co" None User.dca_user [] (Some "d1") true
                None None None [] None None false false false) idle_dca)
    as (_ & _ & Hdca).
  destruct (Hdca eq_refl) as (_ & _ & Havail & _).
  apply (Havail "d1"%string None); reflexivity.
Defined.

(** *** The Authorization header *)

Lemma split_on_spaceless t :
  spaceless t = true -> split_on SPACE t = [t].
Proof.
  induction t as [|a t IH]; [done|]. cbn [spaceless split_on]. cbv zeta.
  intros [Ha Ht]%andb_true_iff. apply negb_true_iff in Ha.
  rewrite Ha, (IH Ht). done.
Qed.

Lemma split_on_first t rest :
  spaceless t = true ->
  split_on SPACE (t +:+ String SPACE rest) = t :: split_on SPACE rest.
Proof.
  induction t as [|a t IH].
  - intros _. change (EmptyString +:+ String SPACE rest)%string
      with (String SPACE rest).
    cbn [split_on]. cbv zeta. by rewrite Ascii.eqb_refl.
  - change (String a t +:+ String SPACE rest)%string
      with (String a (t +:+ String SPACE rest)).
    cbn [spaceless split_on]. cbv zeta.
    intros [Ha Ht]%andb_true_iff. apply negb_true_iff in Ha.
    rewrite Ha, (IH Ht). done.
Qed.

(** X20. The header the front end sends for a token without spaces,
    Bearer followed by a space and the token, gives the back end that
    token, and whatever follows a further space is ignored.  A missing
    header, a header that does not start with Bearer, the bare word
    Bearer, and a header with two spaces after Bearer give no usable
    token, and [authenticate] answers 401 "No token provided" without
    verifying anything. *)
Theorem bearer_token_round_trip (token trailing : string) :
  spaceless token = true ->
  bearer_token (Some (bearer_header token)) = Some token /\
  bearer_token (Some (bearer_header (token +:+ String SPACE trailing)))
    = Some token /\
  bearer_token None = None /\
  bearer_token (Some "Bearer"%string) = None /\
  (forall header, String.prefix "Bearer" header = false ->
                  bearer_token (Some header) = None) /\
  falsy (bearer_token (Some (bearer_header (String SPACE token)))) = true /\
  (forall User_findById jwt_verify bcrypt_hash BCRYPT_SALT_ROUNDS
          authorization w,
     falsy (bearer_token authorization) = true ->
     AuthMiddleware.authenticate User_findById jwt_verify bcrypt_hash
                                 BCRYPT_SALT_ROUNDS authorization w
       = (Respond (mkResponse 401 "Access denied. No token provided." None),
          [], w)).
Proof.
  intros Hsp.
  assert (Hhead : forall rest,
    bearer_token (Some (bearer_header rest))
      = split_on SPACE rest !! 0%nat).
  { intros rest. unfold bearer_token, bearer_header.
    change ("Bearer " +:+ rest)%string
      with ("Bearer" +:+ String SPACE rest)%string.
    rewrite split_on_first by done.
    replace (String.prefix "Bearer" ("Bearer" +:+ String SPACE rest))
      with true by done.
    done. }
  split; [by rewrite Hhead, split_on_spaceless|].
  split; [by rewrite Hhead, split_on_first|].
  split; [done|]. split; [done|]. split.
  - intros header Hpre. unfold bearer_token. by rewrite Hpre.
  - split.
    + rewrite Hhead. change (String SPACE token)
        with (EmptyString +:+ String SPACE token)%string.
      by rewrite split_on_first.
    + intros ?????? Hfalsy. unfold AuthMiddleware.authenticate.
      by rewrite Hfalsy.
Qed.

Lemma bearer_token_round_trip_witness :
  bearer_token (Some "Bearer eyJhbGciOi.J9.sig"%string)
    = Some "eyJhbGciOi.J9.sig"%string.
Proof.
  apply (bearer_token_round_trip "eyJhbGciOi.J9.sig" ""). reflexivity.
Defined.

(** *** Authentication *)

Section Authenticate.

Variable User_findById : string -> JsError + option User.Doc.
Variable jwt_verify : string -> JwtFailure + Decoded.
Variable bcrypt_hash : option string -> Z -> JsError + string.
Variable BCRYPT_SALT_ROUNDS : option Z.

#[local] Abbreviation authenticate :=
  (AuthMiddleware.authenticate User_findById jwt_verify bcrypt_hash
                               BCRYPT_SALT_ROUNDS).
#[local] Abbreviation optionalAuth :=
  (AuthMiddleware.optionalAuth User_findById jwt_verify).
#[local] Abbreviation validateRefreshToken :=
  (AuthMiddleware.validateRefreshToken User_findById jwt_verify).

#[local] Abbreviation identified :=
  (AuthMiddleware.identified User_findById jwt_verify).

Lemma falsy_false token :
  falsy token = false <-> exists s, token = Some s /\ s <> EmptyString.
Proof.
  destruct token as [s|]; simpl.
  - destruct (String.eqb_spec s EmptyString) as [->|Hne]; split;
      try done.
    + intros (s' & [= <-] & Hs). done.
    + intros _. by exists s.
  - split; [done|]. intros (s & Hs & _). done.
Qed.

Lemma save_lastActivity u w :
  (User.save bcrypt_hash BCRYPT_SALT_ROUNDS u w).1.1 = Completed ->
  User.lastActivity (User.save bcrypt_hash BCRYPT_SALT_ROUNDS u w).1.2
    = User.lastActivity u /\
  User.id (User.save bcrypt_hash BCRYPT_SALT_ROUNDS u w).1.2 = User.id u.
Proof.
  rewrite UserProps.save_run.
  assert (Hp : forall v,
    User.lastActivity (User.pre_save_permissions v) = User.lastActivity v /\
    User.id (User.pre_save_permissions v) = User.id v).
  { intros v. unfold User.pre_save_permissions.
    by destruct (User.roleModified v || User.isNew v). }
  destruct (User.passwordModified u); [|intros _; apply Hp].
  destruct (bcrypt_hash _ _) as [e|h]; [done|].
  destruct (User.isNew u); intros _; cbn [fst snd];
    match goal with |- context [User.pre_save_permissions ?v] =>
      destruct (Hp v) as [-> ->] end; done.
Qed.

Lemma authenticate_next_inv authorization w attached log w' :
  authenticate authorization w = (Next attached, log, w') ->
  exists decoded user,
    identified authorization w decoded user /\
    User.changedPasswordAfter (iat decoded) user = false /\
    User.id attached = User.id user /\
    User.lastActivity attached = Some (upcoming w (lock_reads user)) /\
    log = [].
Proof.
  unfold AuthMiddleware.authenticate, AuthMiddleware.identified.
  destruct (falsy (bearer_token authorization)) eqn:Hfalsy; [done|].
  apply falsy_false in Hfalsy as (token & Htok & Hne). rewrite Htok.
  change (default EmptyString (Some token)) with token.
  destruct (jwt_verify token) as [[| |error]|decoded] eqn:Hver; try done.
  destruct (User_findById (decoded_id decoded)) as [error|[user|]] eqn:Hfind;
    try done.
  destruct (User.isActive user) eqn:Hact; [|done]. cbn [negb].
  unfold mbind, IO_bind.
  destruct (User.isLocked user w) as [locked w1] eqn:Hlock.
  destruct locked; [done|].
  destruct (User.changedPasswordAfter (iat decoded) user) eqn:Hchg; [done|].
  unfold new_Date. cbn [fst snd].
  match goal with |- context [User.save _ _ ?v ?x] =>
    pose proof (save_lastActivity v x) as Hsave;
    destruct (User.save bcrypt_hash BCRYPT_SALT_ROUNDS v x)
      as [[o saved] w2] end.
  cbn [fst snd] in *. destruct o; [|done].
  unfold mret, IO_ret. intros [= <- <- <-].
  destruct (Hsave eq_refl) as [Hla Hid].
  exists decoded, user. split.
  { exists token. by rewrite Hlock. }
  split; [done|]. split; [exact Hid|]. split; [|done].
  rewrite Hla. cbn [User.lastActivity User.set_lastActivity].
  unfold User.isLocked in Hlock. unfold upcoming, lock_reads.
  destruct (User.lockUntil user).
  - unfold mbind, IO_bind, mret, IO_ret, User.Date_now, new_Date in Hlock.
    injection Hlock as _ <-. cbn [clock reads]. by rewrite Nat.add_1_r.
  - injection Hlock as <-. by rewrite Nat.add_0_r.
Qed.


(** X21. [optionalAuth] never answers: it attaches a user exactly when
    the request carries a Bearer token that verifies for a stored, active
    user who is not locked, and otherwise goes on without one.  Every
    request that [authenticate] lets through is recognised by
    [optionalAuth] as coming from the same user. *)
Theorem optionalAuth_identified (authorization : option string) (w : World) :
  (forall user,
     (optionalAuth authorization w).1 = Some user
     <-> exists decoded, identified authorization w decoded user) /\
  (forall attached,
     (authenticate authorization w).1.1 = Next attached ->
     exists user, (optionalAuth authorization w).1 = Some user /\
                  User.id attached = User.id user).
Proof.
  assert (Hiff : forall user,
     (optionalAuth authorization w).1 = Some user
     <-> exists decoded, identified authorization w decoded user).
  { intros user.
    unfold AuthMiddleware.optionalAuth, AuthMiddleware.identified. split.
    - destruct (falsy (bearer_token authorization)) eqn:Hfalsy; [done|].
      apply falsy_false in Hfalsy as (token & Htok & Hne). rewrite Htok.
      change (default EmptyString (Some token)) with token.
      destruct (jwt_verify token) as [failure|decoded] eqn:Hver; [done|].
      destruct (User_findById (decoded_id decoded)) as [error|[found|]]
        eqn:Hfind; try done.
      destruct (User.isActive found) eqn:Hact; [|done].
      unfold mbind, IO_bind, mret, IO_ret.
      destruct (User.isLocked found w) as [locked w1] eqn:Hlock.
      destruct locked; [done|]. cbn [fst]. intros [= <-].
      exists decoded, token. by rewrite Hlock.
    - intros (decoded & token & Htok & Hne & Hver & Hfind & Hact & Hlock).
      rewrite Htok.
      assert (Hf : falsy (Some token) = false)
        by (apply falsy_false; by exists token).
      rewrite Hf. change (default EmptyString (Some token)) with token.
      rewrite Hver, Hfind, Hact.
      unfold mbind, IO_bind, mret, IO_ret.
      destruct (User.isLocked user w) as [locked w1]. cbn [fst] in *.
      by subst locked. }
  split; [exact Hiff|].
  intros attached Hnext.
  destruct (authenticate authorization w) as [[step log] w'] eqn:Hrun.
  cbn [fst snd] in *. subst step.
  apply authenticate_next_inv in Hrun
    as (decoded & user & Hid & _ & Hsame & _).
  exists user. split; [|done]. apply Hiff. by exists decoded.
Qed.

Lemma tokenExists_true refreshToken tokens : forall w,
  (User.tokenExists refreshToken tokens w).1 = true ->
  exists entry k,
    entry ∈ tokens /\ User.token entry = refreshToken /\
    upcoming w k < User.expiresAt entry.
Proof.
  induction tokens as [|t tokens IH]; intros w; [done|].
  cbn [User.tokenExists].
  destruct (String.eqb_spec (User.token t) refreshToken) as [Heq|Hne].
  - unfold mbind, IO_bind, mret, IO_ret, new_Date. cbn [fst snd].
    destruct (Z.gtb_spec (User.expiresAt t) (clock w (reads w))) as [Hgt|Hle].
    + intros _. exists t, 0%nat. split; [left|]. split; [done|].
      unfold upcoming. by rewrite Nat.add_0_r.
    + intros Hrest. apply IH in Hrest as (entry & k & Hin & Htok & Hexp).
      exists entry, (S k). split; [by right|]. split; [done|].
      unfold upcoming in *. cbn [clock reads] in Hexp.
      by rewrite Nat.add_succ_r.
  - intros Hrest. apply IH in Hrest as (entry & k & Hin & Htok & Hexp).
    exists entry, k. split; [by right|]. done.
Qed.

(** X22. [validateRefreshToken] calls [next()] only when the body
    carries a token that verifies as a refresh token for a stored user
    who holds an entry for that very token, not expired at an instant
    read during the check.  With a request body at hand, everything
    else is answered 401: a missing
    token, a token that does not verify or a failing store, another token
    type, an unknown user, and a token the user no longer holds. *)
Theorem validateRefreshToken_next (refreshToken : option string) (w : World) :
  (forall user,
     (validateRefreshToken refreshToken w).1.1 = Next user ->
     exists presented decoded entry k,
       refreshToken = Some presented /\ presented <> EmptyString /\
       jwt_verify presented = inr decoded /\
       type decoded = Some "refresh"%string /\
       User_findById (decoded_id decoded) = inr (Some user) /\
       entry ∈ User.refreshTokens user /\
       User.token entry = presented /\
       upcoming w k < User.expiresAt entry) /\
  (forall response,
     (validateRefreshToken refreshToken w).1.1 = Respond response ->
     statusCode response = 401) /\
  (forall presented decoded user,
     refreshToken = Some presented -> presented <> EmptyString ->
     jwt_verify presented = inr decoded ->
     type decoded = Some "refresh"%string ->
     User_findById (decoded_id decoded) = inr (Some user) ->
     presented ∉ map User.token (User.refreshTokens user) ->
     (validateRefreshToken refreshToken w).1.1
       = Respond (mkResponse 401 "Invalid or expired refresh token." None)).
Proof.
  split; [|split].
  - intros user. unfold AuthMiddleware.validateRefreshToken.
    destruct (falsy refreshToken) eqn:Hfalsy; [done|].
    apply falsy_false in Hfalsy as (presented & -> & Hne).
    change (default EmptyString (Some presented)) with presented.
    cbv zeta.
    destruct (jwt_verify presented) as [failure|decoded] eqn:Hver; [done|].
    case_bool_decide as Htype; [|done]. cbn [negb].
    destruct (User_findById (decoded_id decoded)) as [error|[found|]]
      eqn:Hfind; try done.
    unfold mbind, IO_bind, mret, IO_ret.
    pose proof (tokenExists_true presented (User.refreshTokens found) w)
      as Hex.
    destruct (User.tokenExists presented (User.refreshTokens found) w)
      as [[|] w1]; [|done].
    cbn [fst]. intros [= <-].
    destruct (Hex eq_refl) as (entry & k & Hin & Htok & Hexp).
    by exists presented, decoded, entry, k.
  - intros response. unfold AuthMiddleware.validateRefreshToken.
    destruct (falsy refreshToken); [by intros [= <-]|]. cbv zeta.
    destruct (jwt_verify _) as [failure|decoded]; [by intros [= <-]|].
    destruct (negb _); [by intros [= <-]|].
    destruct (User_findById _) as [error|[found|]]; try by intros [= <-].
    unfold mbind, IO_bind, mret, IO_ret.
    destruct (User.tokenExists _ _ w) as [[|] w1]; [done|by intros [= <-]].
  - intros presented decoded user -> Hne Hver Htype Hfind Hnot.
    unfold AuthMiddleware.validateRefreshToken.
    assert (Hf : falsy (Some presented) = false)
      by (apply falsy_false; by exists presented).
    rewrite Hf. change (default EmptyString (Some presented)) with presented.
    cbv zeta. rewrite Hver, Htype, bool_decide_eq_true_2 by done.
    cbn [negb]. rewrite Hfind.
    unfold mbind, IO_bind, mret, IO_ret.
    by rewrite UserProps.tokenExists_absent.
Qed.

End Authenticate.

(** The sample store lets the sample tokens through. *)


Lemma optionalAuth_identified_witness :
  (optionalAuth demo_users demo_verify
     (Some (bearer_header "access-1")) world0).1 = Some registered.
Proof.
  destruct (optionalAuth_identified
              demo_users demo_verify demo_hash None
              (Some (bearer_header "access-1")) world0) as [Hiff _].
  apply Hiff.
  exists (mkDecoded "64a000000000000000000002" 1699999999 None),
         "access-1"%string.
  repeat split. discriminate.
Defined.

Lemma validateRefreshToken_next_witness :
  (validateRefreshToken demo_users demo_verify (Some "rt-1"%string)
     world0).1.1
  = Respond (mkResponse 401 "Invalid or expired refresh token." None).
Proof.
  destruct (validateRefreshToken_next
              demo_users demo_verify (Some "rt-1"%string) world0)
    as (_ & _ & Hgone).
  apply (Hgone "rt-1"%string
               (mkDecoded "64a000000000000000000002" 1699999999
                          (Some "refresh"%string))
               registered); try reflexivity; try discriminate.
  intros Hin. apply list_elem_of_In in Hin. destruct Hin.
Defined.

End AuthMiddlewareProps.

(** ** Properties of the error handler *)
Module ErrorHandlerProps.
Import ErrorHandler.

Lemma status_table :
  forallb (fun n =>
             Bool.eqb (String.prefix "4" (String_of_Z (Z.of_nat n)))
                      ((400 <=? Z.of_nat n) && (Z.of_nat n <=? 499)))
          (seq 100 900) = true.
Proof. vm_compute. reflexivity. Qed.

Lemma prefix_4_three_digits (c : Z) :
  100 <= c <= 999 ->
  String.prefix "4" (String_of_Z c) = ((400 <=? c) && (c <=? 499)).
Proof.
  intros Hc.
  pose proof (proj1 (forallb_forall _ _) status_table (Z.to_nat c)) as H.
  cbv beta in H. rewrite Z2Nat.id in H by lia.
  apply Bool.eqb_prop, H, in_seq. lia.
Qed.

(** X23. An [AppError] of a three-digit status code has the status fail
    exactly for the codes 400 to 499 and the status error for all the
    others, and it is always operational; so every error the handlers of
    the file build is a fail for its 400 and 404 and an error for its 502
    and 503. *)
Theorem new_AppError_status (message : string) (c : Z) :
  100 <= c <= 999 ->
  (status (new_AppError message c) = "fail"%string <-> 400 <= c <= 499) /\
  (status (new_AppError message c) = "error"%string <->
     ~ 400 <= c <= 499) /\
  isOperational (new_AppError message c) = true /\
  statusCode (new_AppError message c) = c /\
  (forall url, status (notFound url) = "fail"%string) /\
  (forall code, status (handleFileUploadError code) = "fail"%string) /\
  (forall messages, status (handleValidationError messages)
                    = "fail"%string) /\
  (forall code response service,
     status (handleExternalAPIError code response service)
     = "error"%string).
Proof.
  intros Hc. unfold new_AppError. cbn [status isOperational statusCode].
  rewrite (prefix_4_three_digits c Hc).
  split; [|split; [|split; [done|split; [done|]]]].
  - destruct (400 <=? c) eqn:E1, (c <=? 499) eqn:E2; cbn;
      rewrite ?Z.leb_le, ?Z.leb_gt in *; split; try done; lia.
  - destruct (400 <=? c) eqn:E1, (c <=? 499) eqn:E2; cbn;
      rewrite ?Z.leb_le, ?Z.leb_gt in *; split; try done; lia.
  - split; [done|]. split.
    { intros code. unfold handleFileUploadError.
      repeat case_bool_decide; done. }
    split; [done|].
    intros code response service. unfold handleExternalAPIError.
    case_bool_decide; [done|].
    destruct response as [[st txt]|]; [|done].
    by destruct (st >=? 400).
Qed.

Lemma new_AppError_status_witness :
  100 <= 423 <= 999 /\
  status (new_AppError "Account is temporarily locked" 423) = "fail"%string.
Proof.
  assert (Hc : 100 <= 423 <= 999) by lia.
  destruct (new_AppError_status "Account is temporarily locked" 423 Hc)
    as (Hfail & _).
  split; [exact Hc|]. apply Hfail. lia.
Defined.

(** Outside the three-digit codes the first digit alone decides. *)
Example new_AppError_status_first_digit :
  status (new_AppError "teapot" 4000) = "fail"%string /\
  status (new_AppError "teapot" 40) = "fail"%string.
Proof. split; reflexivity. Qed.

(** X24. In production the response to an error that is not operational
    is the same whatever the error says: status 500 and a fixed message,
    and the error is logged; nothing of its message or status code
    reaches the client.  An [AppError] is answered with its own status
    code and message and is not logged.  The time stamp is sent on the
    API paths only, and only there the clock is read. *)
Theorem sendErrorProd_discloses (url : string) (w : World) :
  (forall c c' m m',
     (sendErrorProd c m false url w).1 = (sendErrorProd c' m' false url w).1)
  /\
  (forall c m,
     let r := (sendErrorProd c m false url w).1 in
     responseStatus r.1 = 500 /\
     responseMessage r.1 = "Something went wrong!"%string /\
     r.2 = true) /\
  (forall m c,
     let e := new_AppError m c in
     let r := (sendErrorProd (statusCode e) (message e) (isOperational e)
                             url w).1 in
     responseStatus r.1 = c /\ responseMessage r.1 = m /\ r.2 = false) /\
  (forall c m op,
     let r := sendErrorProd c m op url w in
     (timestamp r.1.1 = Some (upcoming w 0) /\ reads r.2 = S (reads w) /\
      String.prefix "/api" url = true) \/
     (timestamp r.1.1 = None /\ r.2 = w /\
      String.prefix "/api" url = false)).
Proof.
  unfold sendErrorProd, new_AppError, mbind, IO_bind, mret, IO_ret,
    new_Date, upcoming.
  rewrite Nat.add_0_r.
  destruct (String.prefix "/api" url); cbn.
  - repeat split; try done. intros c m op. left. by destruct op.
  - repeat split; try done. intros c m op. right. by destruct op.
Qed.

End ErrorHandlerProps.

(** ** Properties of the front end *)
Module FrontendProps.
Import Frontend.

Lemma dispatch_all_snoc {User} (s : AuthState User) actions a :
  dispatch_all s (actions ++ [a]) = authReducer (dispatch_all s actions) a.
Proof. unfold dispatch_all. by rewrite foldl_app. Qed.

(** X25. Whatever is dispatched from the initial state, a state that
    says the user is authenticated holds a user and a token and no
    error.  After a logout or a failure the state is signed out and holds
    no token, and it stays so under all actions but AUTH_SUCCESS. *)
Theorem authReducer_session {User : Type}
    (stored_token : option string) (actions : list (AuthAction User)) :
  let s := dispatch_all (initialState stored_token) actions in
  (isAuthenticated s = true ->
     is_Some (user s) /\ is_Some (token s) /\ error s = None) /\
  (forall (s0 : AuthState User) (a0 : AuthAction User) rest,
     a0 = AUTH_LOGOUT \/ (exists payload, a0 = AUTH_FAILURE payload) ->
     Forall (fun a => forall u t, a <> AUTH_SUCCESS u t) rest ->
     let s' := dispatch_all (authReducer s0 a0) rest in
     isAuthenticated s' = false /\ token s' = None).
Proof.
  cbv zeta. split.
  - induction actions as [|a actions IH] using rev_ind; [done|].
    rewrite dispatch_all_snoc.
    destruct a; cbn; intros Hauth; try done;
      destruct (IH Hauth) as (Hu & Ht & He); done.
  - intros s0 a0 rest Ha0 Hrest.
    induction rest as [|a rest IH] using rev_ind.
    + destruct Ha0 as [->|[payload ->]]; done.
    + rewrite Forall_app, Forall_singleton in Hrest.
      destruct Hrest as [Hrest Ha].
      destruct (IH Hrest) as [Hauth Htok].
      rewrite dispatch_all_snoc.
      destruct a; cbn; try done. by destruct (Ha payload_user payload_token).
Qed.

Lemma role_name_admin (r : User.Role) :
  String.eqb (User.role_name r) "admin" = bool_decide (r = User.admin).
Proof. by destruct r. Qed.

(** X26. The checks the front end makes on the user object agree with
    the checks of the API on the stored user: [hasPermission] answers as
    the model's method does, so [requirePermission] lets a request pass
    exactly when the front end shows the permission, and [authorize] lets
    it pass exactly when [hasRole] holds.  Without a user both front-end
    checks answer false and both middlewares answer 401. *)
Theorem hasPermission_agrees (u : User.Doc) (permission : string)
    (roles : list string) :
  hasPermission (Some (user_object u)) permission
    = User.hasPermission permission u /\
  ((AuthMiddleware.requirePermission permission (Some u)).1
     = AuthMiddleware.Next tt
   <-> hasPermission (Some (user_object u)) permission = true) /\
  ((AuthMiddleware.authorize roles (Some u)).1 = AuthMiddleware.Next tt
   <-> hasRole (Some (user_object u)) roles = true) /\
  hasPermission None permission = false /\
  hasRole None roles = false /\
  (AuthMiddleware.requirePermission permission None).1
    = (AuthMiddleware.authorize roles None).1 /\
  (AuthMiddleware.authorize roles None).1
    = AuthMiddleware.Respond
        (AuthMiddleware.mkResponse 401 "Authentication required." None).
Proof.
  assert (Hsame : hasPermission (Some (user_object u)) permission
                  = User.hasPermission permission u).
  { unfold hasPermission, user_object, User.hasPermission.
    by rewrite role_name_admin. }
  split; [exact Hsame|]. split; [|split].
  - rewrite Hsame. unfold AuthMiddleware.requirePermission.
    destruct (User.hasPermission permission u); cbn; split; done.
  - unfold AuthMiddleware.authorize, hasRole, user_object.
    case_bool_decide; cbn; split; done.
  - done.
Qed.

End FrontendProps.

(** ** Properties of the login route *)
Module AuthRoutesProps.
Import User UserSamples Samples ErrorHandler AuthRoutes.

Section Login.

Variable bcrypt_compare : string -> string -> bool.
Variable bcrypt_hash : option string -> Z -> JsError + string.
Variable BCRYPT_SALT_ROUNDS : option Z.

#[local] Abbreviation login :=
  (AuthRoutes.login bcrypt_compare bcrypt_hash BCRYPT_SALT_ROUNDS).
#[local] Abbreviation login_each :=
  (AuthRoutes.login_each bcrypt_compare bcrypt_hash BCRYPT_SALT_ROUNDS).
#[local] Abbreviation comparePassword :=
  (AuthRoutes.comparePassword bcrypt_compare).

Lemma login_locked_run password signed_token signed_refresh userAgent u w :
  (isLocked u w).1 = true ->
  login [] password signed_token signed_refresh userAgent (Some u) w =
    (LOCKED, [Security "Login attempt on locked account"], Some u,
     (isLocked u w).2).
Proof.
  intros Hlocked. unfold AuthRoutes.login, mbind, IO_bind, mret, IO_ret.
  destruct (isLocked u w) as [locked w1]. cbn [fst snd] in *.
  by rewrite Hlocked.
Qed.

Lemma login_wrong_run password signed_token signed_refresh userAgent u w :
  (isLocked u w).1 = false -> isActive u = true ->
  comparePassword password u = false ->
  login [] password signed_token signed_refresh userAgent (Some u) w =
    (INVALID, [Security "Failed login attempt - incorrect password"],
     Some (incLoginAttempts u (isLocked u w).2).1,
     (incLoginAttempts u (isLocked u w).2).2).
Proof.
  intros Hlocked Hactive Hwrong.
  unfold AuthRoutes.login, mbind, IO_bind, mret, IO_ret.
  destruct (isLocked u w) as [locked w1]. cbn [fst snd] in *.
  rewrite Hlocked, Hactive, Hwrong. cbn [negb].
  by destruct (incLoginAttempts u w1).
Qed.

Lemma isLocked_unlocked u w :
  lockUntil u = None -> isLocked u w = (false, w).
Proof. intros Hl. unfold isLocked. by rewrite Hl. Qed.

Lemma isLocked_held u w l :
  lockUntil u = Some l -> upcoming w 0 < l ->
  isLocked u w = (true, (new_Date w).2).
Proof.
  intros Hl Hlt. unfold isLocked, Date_now, mbind, IO_bind, mret, IO_ret.
  rewrite Hl. unfold new_Date, upcoming in *. rewrite Nat.add_0_r in Hlt.
  cbn [fst snd]. f_equal. by apply Z.gtb_lt.
Qed.

(** X27. While the lock of an account holds, the login route refuses
    every login to it with status 423, whatever the password, also the
    right one: the password is not compared, the counter of failed
    attempts and the end of the lock stay as they are, and the clock is
    read once. *)
Theorem login_locked
    (password signed_token signed_refresh : string)
    (userAgent : option string) (u : Doc) (l : Z) (w : World) :
  lockUntil u = Some l ->
  upcoming w 0 < l ->
  let r := login [] password signed_token signed_refresh userAgent
                 (Some u) w in
  r.1.1.1 = LOCKED /\
  r.1.2 = Some u /\
  reads r.2 = S (reads w) /\
  (exists e, r.1.1.1 = Rejected e /\ statusCode e = 423 /\
             status e = "fail"%string /\ isOperational e = true).
Proof.
  intros Hl Hlt. cbv zeta.
  rewrite login_locked_run by (by rewrite (isLocked_held u w l)).
  rewrite (isLocked_held u w l) by done. cbn [fst snd].
  repeat split. by eexists.
Qed.

Lemma login_each_failures passwords signed_token signed_refresh :
  forall u w,
  lockUntil u = None -> isActive u = true -> 0 <= attempts u ->
  attempts u + Z.of_nat (length passwords) = 5 ->
  passwords <> [] ->
  Forall (fun p => comparePassword p u = false) passwords ->
  login_each passwords signed_token signed_refresh (Some u) w =
    (replicate (length passwords) INVALID,
     Some (set_lockUntil (Some (upcoming w 0 + 2 * 60 * 60 * 1000))
             (set_loginAttempts (Some 5) u)),
     (new_Date w).2).
Proof.
  induction passwords as [|p passwords IH]; intros u w Hl Hact H0 Hsum Hne Hall;
    [done|].
  apply Forall_cons in Hall as [Hp Hall].
  cbn [AuthRoutes.login_each length replicate].
  unfold mbind, IO_bind, mret, IO_ret.
  rewrite login_wrong_run; rewrite ?isLocked_unlocked; try done.
  cbn [fst snd].
  destruct passwords as [|p' passwords].
  - cbn [length] in Hsum.
    rewrite UserProps.incLoginAttempts_unlocked_reaching by (done || lia).
    cbn [fst snd AuthRoutes.login_each replicate length].
    unfold mret, IO_ret. cbn [fst snd].
    replace (attempts u + 1) with 5 by lia. done.
  - cbn [length] in Hsum.
    rewrite UserProps.incLoginAttempts_unlocked_below by (done || lia).
    cbn [fst snd].
    assert (Hnext : attempts (set_loginAttempts (Some (attempts u + 1)) u)
                    = attempts u + 1) by done.
    rewrite IH; rewrite ?Hnext; try done; cbn [length] in *; lia.
Qed.

(** X28. On an active account without a lock, wrong passwords up to the
    fifth failed attempt on record are each refused with status 401 and
    the same message; the fifth failure locks the account for two hours
    from its instant.  From then on and before the lock ends, a login
    with any password, also the right one, is refused with status 423
    and changes nothing in the store. *)
Theorem login_lockout
    (passwords : list string) (signed_token signed_refresh : string)
    (u : Doc) (w : World) :
  lockUntil u = None ->
  isActive u = true ->
  0 <= attempts u < 5 ->
  attempts u + Z.of_nat (length passwords) = 5 ->
  Forall (fun p => comparePassword p u = false) passwords ->
  let r := login_each passwords signed_token signed_refresh (Some u) w in
  r.1.1 = replicate (length passwords) INVALID /\
  r.1.2 = Some (set_lockUntil (Some (upcoming w 0 + 2 * 60 * 60 * 1000))
                  (set_loginAttempts (Some 5) u)) /\
  reads r.2 = S (reads w) /\
  (forall password userAgent,
     upcoming r.2 0 < upcoming w 0 + 2 * 60 * 60 * 1000 ->
     let r' := login [] password signed_token signed_refresh userAgent
                     r.1.2 r.2 in
     r'.1.1.1 = LOCKED /\ r'.1.2 = r.1.2).
Proof.
  intros Hl Hact Ha Hsum Hall. cbv zeta.
  rewrite login_each_failures; try done; try lia.
  2:{ intros ->. cbn in Hsum. lia. }
  cbn [fst snd]. split; [done|]. split; [done|]. split; [done|].
  intros password userAgent Hlt.
  rewrite login_locked_run; [done|].
  by erewrite isLocked_held.
Qed.

(** X29. The route answers a wrong password for an active account that
    is not locked exactly as it answers an e-mail address no user has:
    the same error with status 401.  A locked or a deactivated account
    is answered differently, so these two answers tell that the account
    exists. *)
Theorem login_refusals
    (password signed_token signed_refresh : string)
    (userAgent : option string) (u : Doc) (w : World) :
  let known := (login [] password signed_token signed_refresh userAgent
                      (Some u) w).1.1.1 in
  let unknown := (login [] password signed_token signed_refresh userAgent
                        None w).1.1.1 in
  unknown = INVALID /\
  ((isLocked u w).1 = false -> isActive u = true ->
   comparePassword password u = false -> known = unknown) /\
  ((isLocked u w).1 = true \/ isActive u = false -> known <> unknown).
Proof.
  cbv zeta. split; [done|]. split.
  - intros Hlocked Hact Hwrong. by rewrite login_wrong_run.
  - intros Hcase.
    destruct (isLocked u w) as [locked w1] eqn:Elock.
    destruct locked.
    + rewrite login_locked_run by (by rewrite Elock). done.
    + destruct Hcase as [Hcase|Hinactive]; [done|].
      unfold AuthRoutes.login, mbind, IO_bind, mret, IO_ret.
      rewrite Elock. cbn [fst snd]. rewrite Hinactive. done.
Qed.

Lemma generateRefreshToken_run refreshToken deviceInfo u w :
  generateRefreshToken refreshToken deviceInfo u w =
    (refreshToken,
     set_refreshTokens
       (keep_last 5
          (refreshTokens u
           ++ [mkRefreshToken refreshToken (upcoming w 0 + THIRTY_DAYS)
                              (default EmptyString deviceInfo)])) u,
     (new_Date w).2).
Proof.
  pose proof (UserProps.generateRefreshToken_tokens
                refreshToken deviceInfo u w) as Hk.
  unfold generateRefreshToken, mbind, IO_bind, mret, IO_ret, Date_now,
    new_Date, upcoming in *.
  rewrite Nat.add_0_r in *. cbn [fst snd refreshTokens set_refreshTokens] in *.
  by rewrite Hk.
Qed.

Lemma tokenExists_issued refreshToken old entry w :
  refreshToken ∉ map token old ->
  token entry = refreshToken ->
  (tokenExists refreshToken (keep_last 5 (old ++ [entry])) w).1
    = (expiresAt entry >? upcoming w 0).
Proof.
  intros Hnot Htok.
  assert (Hdrop : keep_last 5 (old ++ [entry]) = keep_last 4 old ++ [entry]).
  { unfold keep_last. rewrite length_app. cbn [length].
    rewrite drop_app_le by lia. do 2 f_equal. lia. }
  rewrite Hdrop. apply UserProps.tokenExists_last; [|done].
  intros Hin. apply Hnot. unfold keep_last in Hin.
  rewrite <- List.skipn_map in Hin. eapply subseteq_drop. exact Hin.
Qed.


End Login.

(** The samples: five wrong passwords lock [manager], and the right
    password signs [registered] in. *)

Lemma login_locked_witness :
  lockUntil locked_user = Some (1700000000000 + 3600000) /\
  upcoming world0 0 < 1700000000000 + 3600000 /\
  (AuthRoutes.login demo_compare demo_hash None [] "s3cret" "jwt" "rt-1"
     None (Some locked_user) world0).1.1.1 = LOCKED.
Proof.
  assert (Hl : lockUntil locked_user = Some (1700000000000 + 3600000))
    by reflexivity.
  assert (Hlt : upcoming world0 0 < 1700000000000 + 3600000)
    by (vm_compute; reflexivity).
  destruct (login_locked demo_compare demo_hash None "s3cret" "jwt" "rt-1"
              None locked_user _ world0 Hl Hlt) as (Hres & _).
  split; [exact Hl|]. split; [exact Hlt|]. exact Hres.
Defined.

Lemma login_lockout_witness :
  lockUntil registered = None /\ isActive registered = true /\
  0 <= attempts registered < 5 /\
  attempts registered + Z.of_nat (length ["a"; "b"; "c"]%string) = 5 /\
  Forall (fun p => AuthRoutes.comparePassword demo_compare p registered
                   = false) ["a"; "b"; "c"]%string /\
  (AuthRoutes.login_each demo_compare demo_hash None
     ["a"; "b"; "c"]%string "jwt" "rt-1" (Some registered) world0).1.1
  = [INVALID; INVALID; INVALID].
Proof.
  assert (Hl : lockUntil registered = None) by reflexivity.
  assert (Hact : isActive registered = true) by reflexivity.
  assert (Ha : 0 <= attempts registered < 5) 
    by (change (0 <= 2 < 5); lia).
  assert (Hsum : attempts registered
                 + Z.of_nat (length ["a"; "b"; "c"]%string) = 5)
    by reflexivity.
  assert (Hall : Forall (fun p => AuthRoutes.comparePassword demo_compare p
                                    registered = false)
                        ["a"; "b"; "c"]%string)
    by (repeat constructor).
  destruct (login_lockout demo_compare demo_hash None
              ["a"; "b"; "c"]%string "jwt" "rt-1" registered world0
              Hl Hact Ha Hsum Hall) as (Hres & _).
  repeat (split; [assumption|]). exact Hres.
Defined.

Lemma login_refusals_witness :
  (AuthRoutes.login demo_compare demo_hash None [] "guess" "jwt" "rt-1"
     None (Some registered) world0).1.1.1
  = (AuthRoutes.login demo_compare demo_hash None [] "guess" "jwt" "rt-1"
       None None world0).1.1.1.
Proof.
  destruct (login_refusals demo_compare demo_hash None "guess" "jwt" "rt-1"
              None registered world0) as (_ & Hsame & _).
  apply Hsame; reflexivity.
Defined.


End AuthRoutesProps.
